(** * face_anonimizer: the detection-and-mosaic pipeline of [main.py]

    A shallow embedding of [FaceAnonymizer] (src/main.py) and the facts
    its specification states about it.

    Conventions of the embedding.
    - Python integers are [Z]; Python floats are IEEE binary64 values,
      Rocq's primitive [float].
    - An exception is a value of [exn]; code that may raise returns [res].
    - A frame (a numpy array of shape rows x columns x 3) is an [ndarray]:
      its shape and its rows of BGR pixels.
    - OpenCV, mediapipe, click and the file system are not part of the
      sources.  What their calls return is given by a [World]
      ([cv2_resize], [cvtColor], [detector_process], [imread], ...), and
      the theorems hold in every world. *)

From Stdlib Require Import ZArith QArith Bool String Lia.
From Stdlib Require Import Floats.PrimFloat Floats.SpecFloat Floats.FloatOps.
From stdpp Require Import base option list.

Local Open Scope Z_scope.
Set Warnings "-inexact-float".

(** ** Python runtime *)

Module Py.

Inductive exn : Type :=
| ZeroDivisionError
| ValueError
| OverflowError
| AttributeError
| cv2_error.

Inductive res (A : Type) : Type :=
| Ok (a : A)
| Raise (e : exn).
Arguments Ok {A} a.
Arguments Raise {A} e.

Definition bind {A B : Type} (m : res A) (f : A -> res B) : res B :=
  match m with
  | Ok a => f a
  | Raise e => Raise e
  end.

(** [range(n)]: empty when [n <= 0]. *)
Definition range (n : Z) : list Z := map Z.of_nat (seq 0 (Z.to_nat n)).

(** One bound of a slice [a[i:j]] over a dimension of length [n]: a
    negative bound counts from the end, and both are clipped to [0, n]. *)
Definition slice_bound (n i : Z) : Z :=
  if i <? 0 then Z.max (i + n) 0 else Z.min i n.

(** [in_slice n i j k]: index [k] is selected by [a[i:j]]. *)
Definition in_slice (n i j k : Z) : bool :=
  (slice_bound n i <=? k) && (k <? slice_bound n j).

(** Number of indices selected by [a[i:j]]. *)
Definition slice_len (n i j : Z) : Z :=
  Z.max 0 (slice_bound n j - slice_bound n i).

(** [int(a / b)] on integers: true division, then truncation towards
    zero.  The quotient of two integers below 2^52 in magnitude is
    truncated to the same integer as the exact quotient, so the float
    in between is not represented. *)
Definition int_div (a b : Z) : res Z :=
  if b =? 0 then Raise ZeroDivisionError else Ok (Z.quot a b).

(** [math.ceil(a / (s / 2))] on integers: [s / 2] is exact, and the
    ceiling of the rounded quotient is that of the exact one for
    operands below 2^52. *)
Definition ceil_div_half (a s : Z) : res Z :=
  if s =? 0 then Raise ZeroDivisionError else Ok (- ((- (2 * a)) / s)).

(** [float(n)] for an integer [n]: the nearest binary64 value. *)
Definition float_of_int (n : Z) : float :=
  SF2Prim (binary_normalize prec emax n 0 false).

(** [int(x)] for a float [x]: truncation towards zero; infinities and
    NaN raise. *)
Definition int_of_float (x : float) : res Z :=
  match Prim2SF x with
  | S754_zero _ => Ok 0
  | S754_finite s m e =>
      let mag := if 0 <=? e then Z.pos m * 2 ^ e else Z.pos m / 2 ^ (- e) in
      Ok (if s then - mag else mag)
  | S754_infinity _ => Raise OverflowError
  | S754_nan => Raise ValueError
  end.

(** [x * n] for a float [x] and an integer [n]. *)
Definition mul_int (x : float) (n : Z) : float :=
  PrimFloat.mul x (float_of_int n).

End Py.

Import Py.

#[global] Instance res_ret : MRet res := @Ok.
#[global] Instance res_bind : MBind res := fun A B f m => Py.bind m f.

(** ** Frames *)

Definition pixel : Type := Z * Z * Z.

(** A numpy array of shape [(nrows, ncols, 3)]. *)
Record ndarray : Type := mk_ndarray {
  nrows : nat;
  ncols : nat;
  data : list (list pixel)
}.

(** The first two components of [img.shape]. *)
Definition shape (img : ndarray) : Z * Z :=
  (Z.of_nat (nrows img), Z.of_nat (ncols img)).

(** The buffer agrees with the shape, as it does for every numpy array. *)
Definition wf_ndarray (img : ndarray) : Prop :=
  length (data img) = nrows img /\
  Forall (fun row => length row = ncols img) (data img).

(** [img[r, c]]. *)
Definition pixel_at (img : ndarray) (r c : nat) : option pixel :=
  row ← data img !! r; row !! c.

(** A bounding box [(x1, y1, x2, y2)]: columns [x1..x2), rows [y1..y2). *)
Definition box : Type := Z * Z * Z * Z.

(** [in_box img b r c]: pixel [(r, c)] is selected by [img[y1:y2, x1:x2]]. *)
Definition in_box (img : ndarray) (b : box) (r c : nat) : bool :=
  let '(x1, y1, x2, y2) := b in
  in_slice (Z.of_nat (nrows img)) y1 y2 (Z.of_nat r) &&
  in_slice (Z.of_nat (ncols img)) x1 x2 (Z.of_nat c).

(** [img[y1:y2, x1:x2] = pixelated_img[y1:y2, x1:x2]], the body of the
    loop of [process].  Both arrays have the same shape, so the two
    slices select the same indices. *)
Definition paste (pixelated_img img : ndarray) (b : box) : ndarray :=
  {| nrows := nrows img;
     ncols := ncols img;
     data :=
       imap (fun r row =>
         imap (fun c p =>
           if in_box img b r c
           then default p (pixel_at pixelated_img r c)
           else p) row) (data img) |}.

(** The loop of [process] run over a given sequence of boxes. *)
Definition paste_boxes (pixelated_img img : ndarray) (boxes : list box)
  : ndarray :=
  fold_left (paste pixelated_img) boxes img.

(** [img[r1:r2, c1:c2]] read as a value. *)
Definition view (img : ndarray) (r1 r2 c1 c2 : Z) : ndarray :=
  let (h, w) := shape img in
  let ra := Z.to_nat (slice_bound h r1) in
  let ca := Z.to_nat (slice_bound w c1) in
  let rn := Z.to_nat (slice_len h r1 r2) in
  let cn := Z.to_nat (slice_len w c1 c2) in
  {| nrows := rn;
     ncols := cn;
     data := map (fun row => take cn (drop ca row))
                 (take rn (drop ra (data img))) |}.

Inductive interpolation : Type := INTER_LINEAR | INTER_AREA.

(** ** Paths, captures and the collaborators outside the sources *)

(** A [pathlib.Path]: the directories above, and the last component
    split into stem and suffix. *)
Record Path : Type := mk_Path {
  parent : list string;
  stem : string;
  suffix : string
}.

Definition name (p : Path) : string := (stem p ++ suffix p)%string.

Definition with_suffix (p : Path) (s : string) : Path :=
  {| parent := parent p; stem := stem p; suffix := s |}.

Definition with_stem (p : Path) (s : string) : Path :=
  {| parent := parent p; stem := s; suffix := suffix p |}.

(** The components of a path that names a directory. *)
Definition components (p : Path) : list string := parent p ++ [name p].

(** A [cv2.VideoCapture] after construction: whether it opened, the
    properties it reports, and the frames [read] will deliver. *)
Record capture : Type := mk_capture {
  isOpened : bool;
  CAP_PROP_FPS : float;
  CAP_PROP_FRAME_WIDTH : Z;
  CAP_PROP_FRAME_HEIGHT : Z;
  CAP_PROP_FRAME_COUNT : Z;
  frames : list ndarray
}.

(** One detection of mediapipe: [location_data.relative_bounding_box]. *)
Record relative_bounding_box : Type := mk_bbox {
  xmin : float;
  ymin : float;
  width : float;
  height : float
}.

(** What the code calls and does not define. *)
Record World : Type := mk_World {
  (** [cv2.resize(src, (width, height), interpolation)]: the pixels of
      the result, or the error OpenCV raises. *)
  cv2_resize : ndarray -> Z -> Z -> interpolation -> res (list (list pixel));
  (** [cv2.cvtColor(img, cv2.COLOR_BGR2RGB)]. *)
  cvtColor : ndarray -> res ndarray;
  (** [self.detector.process(img_rgb).detections], [None] read as the
      empty list; the confidence threshold is the detector's own. *)
  detector_process : ndarray -> res (list relative_bounding_box);
  (** [cv2.imread]: [None] when the file cannot be read. *)
  imread : Path -> option ndarray;
  (** [cv2.imwrite(str(out_path), img)]: whether the file was written,
      or the error OpenCV raises, as it does for a suffix it has no
      encoder for. *)
  cv2_imwrite : Path -> ndarray -> res bool;
  VideoCapture : Path -> capture;
  (** [path.rglob("*")], in the order it enumerates. *)
  rglob : Path -> list Path;
  is_file : Path -> bool;
  (** Whether click draws its progress bars; a hidden bar is not
      advanced by iteration. *)
  isatty : bool
}.

(** The attributes of a [FaceAnonymizer]; a callback is recorded by
    whether one is bound. *)
Record FaceAnonymizer : Type := mk_FaceAnonymizer {
  face_min_size : Z;
  face_expand : float;
  pixelation_factor : Z;
  window_sizes : list Z;
  local_progress_callback : bool;
  global_progress_callback : bool
}.

Definition video_extensions : list string := [".mp4"; ".avi"; ".mov"]%string.
Definition image_extensions : list string := [".jpg"; ".jpeg"; ".png"]%string.
Definition supported_extensions : list string :=
  video_extensions ++ image_extensions.

(** [s in l] for a list of strings. *)
Definition str_in (s : string) (l : list string) : bool :=
  existsb (String.eqb s) l.

(** ** The mosaic of [process] *)

(** The result of [cv2.resize] has the size asked for. *)
Definition resize (W : World) (src : ndarray) (width height : Z)
    (i : interpolation) : res ndarray :=
  d ← cv2_resize W src width height i;
  Ok {| nrows := Z.to_nat height; ncols := Z.to_nat width; data := d |}.

(** Lines 91-98 of [process]: [w] is the number of rows and [h] the
    number of columns, as the source names them. *)
Definition pixelate_frame (W : World) (self : FaceAnonymizer) (img : ndarray)
  : res ndarray :=
  let (w, h) := shape img in
  pw ← int_div h (pixelation_factor self);
  ph ← int_div w (pixelation_factor self);
  pixelated_img ← resize W img pw ph INTER_LINEAR;
  resize W pixelated_img h w INTER_AREA.

(** [process] with the box generators replaced by a given sequence. *)
Definition anonymize (W : World) (self : FaceAnonymizer) (img : ndarray)
    (boxes : list box) : res ndarray :=
  pixelated_img ← pixelate_frame W self img;
  Ok (paste_boxes pixelated_img img boxes).

(** ** Bounding-box geometry of [process_img] *)

(** Lines 66-69: the detection in pixels of a [h] x [w] image. *)
Definition raw_box (h w : Z) (bbox : relative_bounding_box) : res box :=
  x1 ← int_of_float (mul_int (xmin bbox) w);
  y1 ← int_of_float (mul_int (ymin bbox) h);
  x2 ← int_of_float (mul_int (xmin bbox + width bbox)%float w);
  y2 ← int_of_float (mul_int (ymin bbox + height bbox)%float h);
  Ok (x1, y1, x2, y2).

(** Lines 72-75: each assignment reads the box as the assignments
    before it left it. *)
Definition expand (face_expand : float) (b : box) : res box :=
  let '(x1, y1, x2, y2) := b in
  dx1 ← int_of_float (mul_int face_expand (x2 - x1));
  let x1 := x1 - dx1 in
  dy1 ← int_of_float (mul_int face_expand (y2 - y1));
  let y1 := y1 - dy1 in
  dx2 ← int_of_float (mul_int face_expand (x2 - x1));
  let x2 := x2 + dx2 in
  dy2 ← int_of_float (mul_int face_expand (y2 - y1));
  let y2 := y2 + dy2 in
  Ok (x1, y1, x2, y2).

(** Lines 78-79. *)
Definition clamp (h w : Z) (b : box) : box :=
  let '(x1, y1, x2, y2) := b in
  (Z.max 0 x1, Z.max 0 y1, Z.min w x2, Z.min h y2).

(** Line 82. *)
Definition too_small (face_min_size : Z) (b : box) : bool :=
  let '(x1, y1, x2, y2) := b in
  (x2 - x1 <? face_min_size) || (y2 - y1 <? face_min_size).

(** The body of the loop over detections, up to the size check. *)
Definition bounding_box (self : FaceAnonymizer) (h w : Z)
    (bbox : relative_bounding_box) : res box :=
  b ← raw_box h w bbox;
  b ← expand (face_expand self) b;
  Ok (clamp h w b).

(** What a generator yields, and how it ends. *)
Definition yields : Type := list box * res unit.

(** The loop over detections (lines 61-88). *)
Fixpoint detections_boxes (self : FaceAnonymizer) (h w : Z)
    (detections : list relative_bounding_box) : yields :=
  match detections with
  | [] => ([], Ok tt)
  | bbox :: rest =>
      match bounding_box self h w bbox with
      | Raise e => ([], Raise e)
      | Ok b =>
          let (bs, r) := detections_boxes self h w rest in
          if too_small (face_min_size self) b then (bs, r) else (b :: bs, r)
      end
  end.

(** [process_img]: the pixels are read once, when the generator is first
    resumed; the boxes depend on that reading and on the shape. *)
Definition process_img (W : World) (self : FaceAnonymizer) (img : ndarray)
  : yields :=
  match (img_rgb ← cvtColor W img; detector_process W img_rgb) with
  | Raise e => ([], Raise e)
  | Ok detections =>
      let (h, w) := shape img in
      detections_boxes self h w detections
  end.

(** ** Sliding windows *)

(** A tile [(x1, x2, y1, y2)]: rows [x1..x2), columns [y1..y2), as the
    source names them. *)
Definition tile : Type := Z * Z * Z * Z.

(** The tiles of one axis of length [d]: lines 118-131 for one of the
    two axes. *)
Definition axis_tiles (d window_size : Z) : res (list (Z * Z)) :=
  windows ← ceil_div_half d window_size;
  step ← int_div d windows;
  Ok (map (fun i => (i * step, (i + 1) * step)) (range windows)).

(** The iteration space of the two loops of [sliding_window], in the
    order the loops visit it. *)
Definition sliding_window_tiles (img : ndarray) (window_size : Z)
  : res (list tile) :=
  let (w, h) := shape img in
  windows_x ← ceil_div_half w window_size;
  windows_y ← ceil_div_half h window_size;
  step_x ← int_div w windows_x;
  step_y ← int_div h windows_y;
  Ok (flat_map (fun i =>
        let x1 := i * step_x in
        let x2 := (i + 1) * step_x in
        map (fun j =>
          let y1 := j * step_y in
          let y2 := (j + 1) * step_y in
          (x1, x2, y1, y2)) (range windows_y)) (range windows_x)).

(** Line 142: a box of the window, in the coordinates of the frame. *)
Definition translate (t : tile) (b : box) : box :=
  let '(x1, _, y1, _) := t in
  let '(fx1, fy1, fx2, fy2) := b in
  (y1 + fx1, x1 + fy1, y1 + fx2, x1 + fy2).

(** ** The generators as [process] runs them

    [process] consumes the chained generators one box at a time and
    pastes each box into the frame the generators keep reading: a
    window is a numpy view of that frame.  A generator is therefore a
    function of the frame as it stands, which returns the frame after
    the boxes it yielded were pasted, those boxes, and how it ended. *)

Definition Gen (A : Type) : Type := ndarray -> ndarray * list box * res A.

Definition gen_ret {A : Type} (a : A) : Gen A :=
  fun img => (img, [], Ok a).

Definition gen_bind {A B : Type} (m : Gen A) (f : A -> Gen B) : Gen B :=
  fun img =>
    let '(img1, bs1, r) := m img in
    match r with
    | Raise e => (img1, bs1, Raise e)
    | Ok a => let '(img2, bs2, r2) := f a img1 in (img2, bs1 ++ bs2, r2)
    end.

(** The shared frame, as it stands. *)
Definition read : Gen ndarray := fun img => (img, [], Ok img).

Definition lift {A : Type} (r : res A) : Gen A := fun img => (img, [], r).

(** [yield b] for each box of [ys], each followed by the body of the
    loop of [process] (line 108), then the end of [ys]. *)
Definition yield_from (pixelated_img : ndarray) (ys : yields) : Gen unit :=
  fun img => (paste_boxes pixelated_img img ys.1, ys.1, ys.2).

Fixpoint for_each {A : Type} (l : list A) (body : A -> Gen unit) : Gen unit :=
  match l with
  | [] => gen_ret tt
  | x :: rest => gen_bind (body x) (fun _ => for_each rest body)
  end.

(** [sliding_window] (lines 115-142). *)
Definition sliding_window (W : World) (self : FaceAnonymizer)
    (pixelated_img : ndarray) (window_size : Z) : Gen unit :=
  gen_bind read (fun img =>
  gen_bind (lift (sliding_window_tiles img window_size)) (fun tiles =>
  for_each tiles (fun t =>
    let '(x1, x2, y1, y2) := t in
    gen_bind read (fun img =>
    let window := view img x1 x2 y1 y2 in
    let (bs, r) := process_img W self window in
    yield_from pixelated_img (map (translate t) bs, r))))).

(** [sliding_windows] (lines 111-113). *)
Definition sliding_windows (W : World) (self : FaceAnonymizer)
    (pixelated_img : ndarray) : Gen unit :=
  for_each (window_sizes self) (sliding_window W self pixelated_img).

(** The frame [process] leaves, the boxes its loop received, and whether
    it returned or raised. *)
Definition process (W : World) (self : FaceAnonymizer) (img : ndarray)
  : ndarray * list box * res unit :=
  match pixelate_frame W self img with
  | Raise e => (img, [], Raise e)
  | Ok pixelated_img =>
      gen_bind (sliding_windows W self pixelated_img) (fun _ =>
      gen_bind read (fun img =>
      yield_from pixelated_img (process_img W self img))) img
  end.

(** ** Files, videos and directories *)

Inductive filetype : Type := video | image.

(** What a run does that can be observed from outside: the two
    callbacks, the two messages of [_process_file] (other console output
    is left out), and what is written. *)
Inductive event : Type :=
| global_progress (progress : Q) (t : filetype) (filename : Path)
| local_progress (progress : Q)
| echo_processing (t : filetype) (filename : Path)
| echo_saved (t : filetype) (out_filepath : Path)
| VideoWriter (out_path : Path) (fps : float) (frame_width frame_height : Z)
| out_write (img : ndarray)
| capture_release
| out_release
| imwrite (out_path : Path) (img : ndarray)
| mkdir (dir : list string).

(** The events of a call, in order, and how the call ended. *)
Definition IO (A : Type) : Type := list event * res A.

#[global] Instance io_ret : MRet IO := fun A a => ([], Ok a).
#[global] Instance io_bind : MBind IO := fun A B f m =>
  match m with
  | (evs, Ok a) => let (evs', r) := f a in (evs ++ evs', r)
  | (evs, Raise e) => (evs, Raise e)
  end.

Definition emit (e : event) : IO unit := ([e], Ok tt).

(** [if callback: callback(...)]. *)
Definition call (callback : bool) (e : event) : IO unit :=
  if callback then emit e else mret tt.

(** [bar.pct] of a click progress bar of length [length] advanced [pos]
    times by one step: 0 before the first step, 1.0 once [pos >= length],
    else [pos / length]. *)
Definition bar_pct (pos length : Z) : Q :=
  if pos =? 0 then 0%Q
  else if length <=? pos then 1%Q
  else (pos # Z.to_pos length)%Q.

(** [process_image_file] (lines 144-147); [process(None)] fails on
    [img.shape].  The event [imwrite] is the call of [cv2.imwrite]; what
    the call returns is dropped, what it raises is raised. *)
Definition process_image_file (W : World) (self : FaceAnonymizer)
    (in_path out_path : Path) : IO unit :=
  match imread W in_path with
  | None => ([], Raise AttributeError)
  | Some img =>
      let '(img, _, r) := process W self img in
      _ ← ([], r) : IO unit;
      _ ← emit (imwrite out_path img);
      _ ← ([], cv2_imwrite W out_path img) : IO bool;
      mret tt
  end.

(** The [while] loop of [process_video_file] (lines 168-177) on a
    capture that opened: it stays open until it is released, and [read]
    fails after the last frame.  [pos] frames were written so far. *)
Fixpoint video_loop (W : World) (self : FaceAnonymizer) (total_frames : Z)
    (pos : Z) (frames : list ndarray) : IO unit :=
  match frames with
  | [] => mret tt
  | frame :: rest =>
      let '(img, _, r) := process W self frame in
      _ ← ([], r) : IO unit;
      _ ← emit (out_write img);
      let pos := pos + 1 in
      _ ← call (local_progress_callback self)
               (local_progress (bar_pct pos total_frames));
      video_loop W self total_frames pos rest
  end.

(** [process_video_file] (lines 149-180). *)
Definition process_video_file (W : World) (self : FaceAnonymizer)
    (in_path out_path : Path) : IO unit :=
  let capture := VideoCapture W in_path in
  _ ← emit (VideoWriter out_path (CAP_PROP_FPS capture)
              (CAP_PROP_FRAME_WIDTH capture) (CAP_PROP_FRAME_HEIGHT capture));
  let total_frames := CAP_PROP_FRAME_COUNT capture in
  _ ← (if isOpened capture
       then video_loop W self total_frames 0 (frames capture)
       else mret tt);
  _ ← emit capture_release;
  emit out_release.

(** [_process_file] (lines 182-199). *)
Definition _process_file (W : World) (self : FaceAnonymizer)
    (filename out_filepath : Path) (progress : Q) : IO unit :=
  let '(out_filepath, t) :=
    if str_in (suffix filename) video_extensions
    then (with_suffix out_filepath ".mp4", video)
    else (out_filepath, image) in
  _ ← call (global_progress_callback self)
           (global_progress progress t filename);
  _ ← emit (echo_processing t filename);
  _ ← match t with
      | video => process_video_file W self filename out_filepath
      | image => process_image_file W self filename out_filepath
      end;
  emit (echo_saved t out_filepath).

(** [process_file] (lines 201-203). *)
Definition process_file (W : World) (self : FaceAnonymizer) (filename : Path)
  : IO unit :=
  let out_filename :=
    with_stem filename (stem filename ++ "_anonymized")%string in
  _process_file W self filename out_filename 0%Q.

(** [sorted(l, key=key, reverse=True)] for a boolean key.  CPython
    reverses the list, sorts it stably in increasing order and reverses
    the result; every stable sort gives the same list. *)
Fixpoint insert_by {A : Type} (key : A -> bool) (x : A) (l : list A)
  : list A :=
  match l with
  | [] => [x]
  | y :: rest =>
      if implb (key x) (key y) then x :: l else y :: insert_by key x rest
  end.

Definition stable_sort {A : Type} (key : A -> bool) (l : list A) : list A :=
  foldr (insert_by key) [] l.

Definition sorted_reverse {A : Type} (key : A -> bool) (l : list A)
  : list A :=
  reverse (stable_sort key (reverse l)).

(** Lines 207-215 of [process_dir]. *)
Definition files_to_process (W : World) (path : Path) : list Path :=
  let files_to_process := rglob W path in
  let files_to_process :=
    filter (fun f => is_file W f && str_in (suffix f) supported_extensions)
           files_to_process in
  sorted_reverse (fun f => str_in (suffix f) image_extensions)
                 files_to_process.

(** The loop of [process_dir] (lines 218-223): the bar stands at [pos]
    of [total] when [filename] is handed out. *)
Fixpoint dir_loop (W : World) (self : FaceAnonymizer) (path : Path)
    (out_path : list string) (total pos : Z) (files : list Path) : IO unit :=
  match files with
  | [] => mret tt
  | filename :: rest =>
      let out_subpath :=
        out_path ++ drop (length (components path)) (parent filename) in
      _ ← emit (mkdir out_subpath);
      let out_filepath :=
        {| parent := out_subpath;
           stem := stem filename;
           suffix := suffix filename |} in
      _ ← _process_file W self filename out_filepath (bar_pct pos total);
      dir_loop W self path out_path total
               (if isatty W then pos + 1 else pos) rest
  end.

(** [process_dir] (lines 205-226). *)
Definition process_dir (W : World) (self : FaceAnonymizer) (path : Path)
  : IO (list string) :=
  let out_path := parent path ++ [(stem path ++ "_anonymized")%string] in
  let files := files_to_process W path in
  _ ← dir_loop W self path out_path (Z.of_nat (length files)) 0 files;
  mret out_path.

(** ** What the facts below speak about *)

(** Pixel [(r, c)] lies in the slice of some box of the sequence. *)
Definition covered (img : ndarray) (boxes : list box) (r c : nat) : bool :=
  existsb (fun b => in_box img b r c) boxes.

(** [0 <= x1 <= x2 <= w] and [0 <= y1 <= y2 <= h]. *)
Definition box_in_frame (h w : Z) (b : box) : Prop :=
  let '(x1, y1, x2, y2) := b in
  0 <= x1 <= x2 /\ x2 <= w /\ 0 <= y1 <= y2 /\ y2 <= h.

Definition box_min_size (m : Z) (b : box) : Prop :=
  let '(x1, y1, x2, y2) := b in
  m <= x2 - x1 /\ m <= y2 - y1.

Definition tile_in_frame (h w : Z) (t : tile) : Prop :=
  let '(x1, x2, y1, y2) := t in
  0 <= x1 <= x2 /\ x2 <= h /\ 0 <= y1 <= y2 /\ y2 <= w.

Definition detected_box (self : FaceAnonymizer) (h w : nat) (b : box) : Prop :=
  box_in_frame (Z.of_nat h) (Z.of_nat w) b /\
  box_min_size (face_min_size self) b.

(** [m] yields only boxes that satisfy [P] and leaves the frame with
    exactly the boxes it yielded pasted, on every frame of [h] rows and
    [w] columns. *)
Definition gen_spec {A : Type} (pix : ndarray) (h w : nat) (P : box -> Prop)
    (m : Gen A) : Prop :=
  forall img, nrows img = h -> ncols img = w ->
    Forall P (m img).1.2 /\ (m img).1.1 = paste_boxes pix img (m img).1.2.

(** Coordinate [p] lies in one of the intervals. *)
Definition covers (tiles : list (Z * Z)) (p : Z) : Prop :=
  exists a b, (a, b) ∈ tiles /\ a <= p < b.

(** The kind [_process_file] gives a file. *)
Definition filetype_of (f : Path) : filetype :=
  if str_in (suffix f) video_extensions then video else image.

#[global] Instance filetype_eq_dec : EqDecision filetype.
Proof. solve_decision. Defined.

Definition is_image (f : Path) : bool := str_in (suffix f) image_extensions.

(** The files [process_dir] keeps, in the order [rglob] found them. *)
Definition eligible (W : World) (path : Path) : list Path :=
  filter (fun f => is_file W f && str_in (suffix f) supported_extensions)
         (rglob W path).

(** The files a run started on, in order. *)
Definition jobs (evs : list event) : list (filetype * Path) :=
  omap (fun e => match e with
                 | echo_processing t f => Some (t, f)
                 | _ => None
                 end) evs.

Definition global_values (evs : list event) : list Q :=
  omap (fun e => match e with
                 | global_progress p _ _ => Some p
                 | _ => None
                 end) evs.

Definition local_values (evs : list event) : list Q :=
  omap (fun e => match e with
                 | local_progress p => Some p
                 | _ => None
                 end) evs.

Fixpoint nondecreasing (l : list Q) : Prop :=
  match l with
  | [] => True
  | x :: rest => Forall (Qle x) rest /\ nondecreasing rest
  end.

(** Events of the processing of one file's contents. *)
Definition media_event (e : event) : Prop :=
  match e with
  | global_progress _ _ _ | echo_processing _ _ | echo_saved _ _ | mkdir _ =>
      False
  | _ => True
  end.

(** ** Sample inputs *)

Definition gray (v : Z) : pixel := (v, v, v).

(** The mean of a channel, rounded to the nearest integer. *)
Definition mean_channel (l : list Z) : Z :=
  (2 * foldr Z.add 0 l + Z.of_nat (length l)) / (2 * Z.of_nat (length l)).

Definition mean_pixel (ps : list pixel) : pixel :=
  (mean_channel (map (fun p => p.1.1) ps),
   mean_channel (map (fun p => p.1.2) ps),
   mean_channel (map (fun p => p.2) ps)).

(** A [cv2.resize] that fills the result with the mean pixel of the
    source.  This is what OpenCV computes in the two calls of [process]
    on a 2 x 2 frame with [pixelation_factor = 2]: reducing 2 x 2 to
    1 x 1 samples the centre, the mean of the four pixels, and enlarging
    1 x 1 repeats the only pixel.  On other sizes it is merely some
    resize of the size asked for. *)
Definition mean_resize (src : ndarray) (width height : Z) (_ : interpolation)
  : res (list (list pixel)) :=
  if (width <=? 0) || (height <=? 0) then Raise cv2_error
  else Ok (replicate (Z.to_nat height)
             (replicate (Z.to_nat width) (mean_pixel (concat (data src))))).

(** A capture that did not open. *)
Definition no_capture : capture :=
  {| isOpened := false; CAP_PROP_FPS := 0%float; CAP_PROP_FRAME_WIDTH := 0;
     CAP_PROP_FRAME_HEIGHT := 0; CAP_PROP_FRAME_COUNT := 0; frames := [] |}.

Definition small_frame : ndarray :=
  {| nrows := 2; ncols := 2;
     data := [[gray 0; gray 8]; [gray 0; gray 8]] |}.

Definition checker_frame : ndarray :=
  {| nrows := 2; ncols := 2;
     data := [[gray 0; gray 8]; [gray 8; gray 0]] |}.

Definition frame_100 : ndarray :=
  {| nrows := 100; ncols := 100;
     data := replicate 100 (replicate 100 (gray 0)) |}.

Definition frame_1000 : ndarray :=
  {| nrows := 1000; ncols := 1000;
     data := replicate 1000 (replicate 1000 (gray 0)) |}.

Definition frame_1080x1920 : ndarray :=
  {| nrows := 1080; ncols := 1920;
     data := replicate 1080 (replicate 1920 (gray 0)) |}.

Definition two_frame_capture : capture :=
  {| isOpened := true; CAP_PROP_FPS := 25%float; CAP_PROP_FRAME_WIDTH := 2;
     CAP_PROP_FRAME_HEIGHT := 2; CAP_PROP_FRAME_COUNT := 2;
     frames := [small_frame; small_frame] |}.

(** A detection covering [0.3, 0.5) of both axes. *)
Definition sample_bbox : relative_bounding_box :=
  {| xmin := 0.3%float; ymin := 0.3%float;
     width := 0.2%float; height := 0.2%float |}.

(** An OpenCV that encodes JPEG, PNG and BMP files and raises on any
    other suffix. *)
Definition sample_imwrite (out_path : Path) (img : ndarray) : res bool :=
  if str_in (suffix out_path) [".jpg"; ".jpeg"; ".png"; ".bmp"]%string
  then Ok true
  else Raise cv2_error.

(** No face anywhere, 2 x 2 images, videos that do not open. *)
Definition small_world : World :=
  {| cv2_resize := mean_resize;
     cvtColor := fun img => Ok img;
     detector_process := fun _ => Ok [];
     imread := fun _ => Some small_frame;
     cv2_imwrite := sample_imwrite;
     VideoCapture := fun _ => no_capture;
     rglob := fun _ => [];
     is_file := fun _ => true;
     isatty := true |}.

(** As [small_world], with videos of two frames. *)
Definition video_world : World :=
  {| cv2_resize := mean_resize;
     cvtColor := fun img => Ok img;
     detector_process := fun _ => Ok [];
     imread := fun _ => Some small_frame;
     cv2_imwrite := sample_imwrite;
     VideoCapture := fun _ => two_frame_capture;
     rglob := fun _ => [];
     is_file := fun _ => true;
     isatty := true |}.

(** One face, [sample_bbox], in whatever the detector is shown. *)
Definition face_world : World :=
  {| cv2_resize := mean_resize;
     cvtColor := fun img => Ok img;
     detector_process := fun _ => Ok [sample_bbox];
     imread := fun _ => Some frame_100;
     cv2_imwrite := sample_imwrite;
     VideoCapture := fun _ => no_capture;
     rglob := fun _ => [];
     is_file := fun _ => true;
     isatty := true |}.

(** The defaults of [__init__], with both callbacks bound. *)
Definition default_self : FaceAnonymizer :=
  {| face_min_size := 5; face_expand := 0.2%float; pixelation_factor := 20;
     window_sizes := [400; 700]; local_progress_callback := true;
     global_progress_callback := true |}.

(** Parameters for 2 x 2 frames. *)
Definition small_self : FaceAnonymizer :=
  {| face_min_size := 0; face_expand := 0.2%float; pixelation_factor := 2;
     window_sizes := [2]; local_progress_callback := true;
     global_progress_callback := true |}.

Definition photo : Path :=
  {| parent := ["in"]%string; stem := "a"; suffix := ".jpg" |}.
Definition clip : Path :=
  {| parent := ["in"]%string; stem := "b"; suffix := ".avi" |}.
Definition clip_out : Path :=
  {| parent := ["in"]%string; stem := "b_anonymized"; suffix := ".mp4" |}.

(** ** The rest of [main.py], [process_dir.py] and [gui.py] *)

(** [img[y1:y2, x1:x2] = face] for a [face] of another array: numpy
    broadcasts the value, so along each axis [face] must have the length
    of the slice or length 1, and a [ValueError] is raised otherwise. *)
Definition assign_slice (img : ndarray) (b : box) (face : ndarray)
  : res ndarray :=
  let '(x1, y1, x2, y2) := b in
  let (h, w) := shape img in
  let (fh, fw) := shape face in
  if ((fh =? slice_len h y1 y2) || (fh =? 1)) &&
     ((fw =? slice_len w x1 x2) || (fw =? 1))
  then
    let r0 := Z.to_nat (slice_bound h y1) in
    let c0 := Z.to_nat (slice_bound w x1) in
    Ok {| nrows := nrows img;
          ncols := ncols img;
          data :=
            imap (fun r row =>
              imap (fun c p =>
                if in_box img b r c
                then default p
                       (pixel_at face
                          (if fh =? 1 then 0%nat else (r - r0)%nat)
                          (if fw =? 1 then 0%nat else (c - c0)%nat))
                else p) row) (data img) |}
  else Raise ValueError.

(** [pixelate] (lines 42-55): the frame as the call leaves it.  The
    method returns [img] from the guard and nothing otherwise; either
    way the caller holds the array it passed. *)
Definition pixelate (W : World) (self : FaceAnonymizer) (img : ndarray)
    (x1 y1 x2 y2 : Z) : res ndarray :=
  let face := view img y1 y2 x1 x2 in
  pw ← int_div (x2 - x1) (pixelation_factor self);
  ph ← int_div (y2 - y1) (pixelation_factor self);
  if (pw <? 1) || (ph <? 1) then Ok img
  else
    face ← resize W face pw ph INTER_LINEAR;
    face ← resize W face (x2 - x1) (y2 - y1) INTER_AREA;
    assign_slice img (x1, y1, x2, y2) face.

(** [FaceAnonymizer()]: the defaults of [__init__] (lines 20-40), no
    callback bound. *)
Definition FaceAnonymizer_init : FaceAnonymizer :=
  {| face_min_size := 5; face_expand := 0.2%float; pixelation_factor := 20;
     window_sizes := [400; 700]; local_progress_callback := false;
     global_progress_callback := false |}.

(** The command of [process_dir.py] (lines 9-12): the value returned is
    the path handed to [click.launch]. *)
Definition process_dir_command (W : World) (path : Path) : IO (list string) :=
  let face_blur := FaceAnonymizer_init in
  out_path ← process_dir W face_blur path;
  mret out_path.

(** [FilePanel.select_file] of [gui.py] (lines 208-210): the kind the
    panel shows for a chosen file. *)
Definition selected_type (selected : Path) : filetype :=
  if str_in (suffix selected) image_extensions then image else video.

(** ** What the further facts speak about *)

(** Pixel [(r, c)] lies in the window of a tile. *)
Definition in_tile (t : tile) (r c : Z) : Prop :=
  let '(x1, x2, y1, y2) := t in x1 <= r < x2 /\ y1 <= c < y2.

(** The frames handed to the video writer, in order. *)
Definition written_frames (evs : list event) : list ndarray :=
  omap (fun e => match e with
                 | out_write img => Some img
                 | _ => None
                 end) evs.

(** The paths opened for writing, in order. *)
Definition written_paths (evs : list event) : list Path :=
  omap (fun e => match e with
                 | VideoWriter p _ _ _ => Some p
                 | imwrite p _ => Some p
                 | _ => None
                 end) evs.

(** The destinations of the files announced as saved, in order. *)
Definition saved_paths (evs : list event) : list Path :=
  omap (fun e => match e with
                 | echo_saved _ p => Some p
                 | _ => None
                 end) evs.

(** The directories created, in order. *)
Definition made_dirs (evs : list event) : list (list string) :=
  omap (fun e => match e with
                 | mkdir d => Some d
                 | _ => None
                 end) evs.

(** The loop of a video writes frames and reports progress, nothing
    else. *)
Definition loop_event (e : event) : Prop :=
  match e with
  | out_write _ | local_progress _ => True
  | _ => False
  end.

(** Where [_process_file] writes the result for [filename] when it is
    handed [out_filepath] (lines 183-187). *)
Definition destination (filename out_filepath : Path) : Path :=
  match filetype_of filename with
  | video => with_suffix out_filepath ".mp4"
  | image => out_filepath
  end.

(** [process_image_file] gets as far as calling [cv2.imwrite]: the
    image was read and [process] returned. *)
Definition reaches_imwrite (W : World) (self : FaceAnonymizer)
    (in_path : Path) : bool :=
  match imread W in_path with
  | Some img =>
      match (process W self img).2 with Ok _ => true | Raise _ => false end
  | None => false
  end.



(** ** Further sample inputs *)

(** A 4 x 4 frame whose pixels all differ. *)
Definition ramp_frame : ndarray :=
  {| nrows := 4; ncols := 4;
     data := [[gray 0; gray 4; gray 8; gray 12];
              [gray 16; gray 20; gray 24; gray 28];
              [gray 32; gray 36; gray 40; gray 44];
              [gray 48; gray 52; gray 56; gray 60]] |}.

(** A directory [in] holding a video, a text file and an image, in the
    order enumeration finds them. *)
Definition folder : Path :=
  {| parent := []; stem := "in"; suffix := EmptyString |}.
Definition notes : Path :=
  {| parent := ["in"]%string; stem := "notes"; suffix := ".txt" |}.
Definition dir_world : World :=
  {| cv2_resize := mean_resize;
     cvtColor := fun img => Ok img;
     detector_process := fun _ => Ok [];
     imread := fun _ => Some small_frame;
     cv2_imwrite := sample_imwrite;
     VideoCapture := fun _ => two_frame_capture;
     rglob := fun _ => [clip; notes; photo];
     is_file := fun _ => true;
     isatty := true |}.


(** A detection covering the middle half of both axes. *)
Definition centre_bbox : relative_bounding_box :=
  {| xmin := 0.25%float; ymin := 0.25%float;
     width := 0.5%float; height := 0.5%float |}.

(** A capture that opens, reports no frame and delivers one. *)
Definition uncounted_capture : capture :=
  {| isOpened := true; CAP_PROP_FPS := 25%float; CAP_PROP_FRAME_WIDTH := 2;
     CAP_PROP_FRAME_HEIGHT := 2; CAP_PROP_FRAME_COUNT := 0;
     frames := [small_frame] |}.

(** As [small_world], with videos read through [uncounted_capture]. *)
Definition uncounted_world : World :=
  {| cv2_resize := mean_resize;
     cvtColor := fun img => Ok img;
     detector_process := fun _ => Ok [];
     imread := fun _ => Some small_frame;
     cv2_imwrite := sample_imwrite;
     VideoCapture := fun _ => uncounted_capture;
     rglob := fun _ => [];
     is_file := fun _ => true;
     isatty := true |}.

(** As [small_self], with no callback bound. *)
Definition quiet_self : FaceAnonymizer :=
  {| face_min_size := 0; face_expand := 0.2%float; pixelation_factor := 2;
     window_sizes := [2]; local_progress_callback := false;
     global_progress_callback := false |}.

(** * Facts *)

(** ** Results and lists *)

Lemma bind_Ok {A B : Type} (m : res A) (f : A -> res B) b :
  (x ← m; f x) = Ok b -> exists a, m = Ok a /\ f a = Ok b.
Proof. destruct m; cbn; [eauto | discriminate]. Qed.

Lemma int_div_Ok a b q : int_div a b = Ok q -> b <> 0 /\ q = Z.quot a b.
Proof.
  unfold int_div. destruct (Z.eqb_spec b 0); [discriminate|].
  intros [= <-]. auto.
Qed.

Lemma elem_of_range i n : i ∈ range n <-> 0 <= i < n.
Proof.
  unfold range. rewrite list_elem_of_fmap. split.
  - intros (k & -> & Hk). apply elem_of_seq in Hk. lia.
  - intros H. exists (Z.to_nat i). split; [lia|]. apply elem_of_seq. lia.
Qed.

Lemma imap_imap {A B C : Type} (f : nat -> A -> B) (g : nat -> B -> C)
    (l : list A) :
  imap g (imap f l) = imap (fun i x => g i (f i x)) l.
Proof.
  apply list_eq; intros i. rewrite !list_lookup_imap.
  destruct (l !! i); reflexivity.
Qed.

Lemma imap_id {A : Type} (l : list A) : imap (fun _ x => x) l = l.
Proof.
  apply list_eq; intros i. rewrite list_lookup_imap.
  destruct (l !! i); reflexivity.
Qed.

Lemma flat_map_fmap {A B C : Type} (f : B -> list C) (g : A -> B)
    (l : list A) :
  flat_map f (map g l) = flat_map (fun x => f (g x)) l.
Proof.
  induction l as [|x l IH]; cbn; [reflexivity|]. rewrite IH. reflexivity.
Qed.

Lemma filter_ext_elem {A : Type} (P Q : A -> Prop)
    `{!forall x, Decision (P x)} `{!forall x, Decision (Q x)} (l : list A) :
  (forall x, x ∈ l -> P x <-> Q x) -> filter P l = filter Q l.
Proof.
  induction l as [|x l IH]; intros Hext; [reflexivity|].
  rewrite !filter_cons.
  assert (Hx : P x <-> Q x) by (apply Hext; left).
  rewrite IH by (intros y Hy; apply Hext; right; exact Hy).
  destruct (decide (P x)), (decide (Q x)); tauto.
Qed.

(** ** Pasting boxes from one mosaic *)

(** After any sequence of boxes a pixel holds the mosaic's value if some
    box covers it, and its own value otherwise. *)
Lemma paste_boxes_data pix boxes : forall img,
  paste_boxes pix img boxes =
  {| nrows := nrows img; ncols := ncols img;
     data := imap (fun r row => imap (fun c p =>
               if covered img boxes r c
               then default p (pixel_at pix r c) else p) row)
             (data img) |}.
Proof.
  induction boxes as [|b boxes IH]; intros img.
  - cbn. destruct img as [h w d]; cbn. f_equal.
    rewrite <- (imap_id d) at 1. apply imap_ext; intros i row _.
    symmetry; apply imap_id.
  - change (paste_boxes pix img (b :: boxes))
      with (paste_boxes pix (paste pix img b) boxes).
    rewrite IH. cbn [nrows ncols data paste]. f_equal.
    rewrite imap_imap. apply imap_ext; intros r row _.
    rewrite imap_imap. apply imap_ext; intros c p _.
    unfold covered; cbn [existsb].
    change (existsb (fun b0 => in_box (paste pix img b) b0 r c) boxes)
      with (existsb (fun b0 => in_box img b0 r c) boxes).
    destruct (in_box img b r c), (existsb _ boxes); cbn; try reflexivity.
    destruct (pixel_at pix r c); reflexivity.
Qed.

(** Pasting keeps a buffer in agreement with its shape. *)
Lemma paste_boxes_wf pix boxes img :
  wf_ndarray img -> wf_ndarray (paste_boxes pix img boxes).
Proof.
  intros [Hrows Hcols]. rewrite paste_boxes_data. split; cbn.
  - rewrite length_imap. exact Hrows.
  - apply Forall_forall. intros row Hrow.
    apply elem_of_lookup_imap in Hrow as (r & row0 & -> & Hr).
    rewrite length_imap.
    rewrite Forall_forall in Hcols. apply Hcols.
    eapply list_elem_of_lookup_2, Hr.
Qed.

Lemma paste_boxes_shape pix boxes img :
  nrows (paste_boxes pix img boxes) = nrows img /\
  ncols (paste_boxes pix img boxes) = ncols img.
Proof. rewrite paste_boxes_data. auto. Qed.

Lemma pixel_at_paste_boxes pix img boxes r c :
  pixel_at (paste_boxes pix img boxes) r c =
  (fun p => if covered img boxes r c
            then default p (pixel_at pix r c) else p)
    <$> pixel_at img r c.
Proof.
  rewrite paste_boxes_data. unfold pixel_at. cbn [data].
  rewrite list_lookup_imap.
  destruct (data img !! r) as [row|]; cbn; [|reflexivity].
  rewrite list_lookup_imap. destruct (row !! c); reflexivity.
Qed.

Lemma covered_ext img (bs bs' : list box) r c :
  (forall b, b ∈ bs <-> b ∈ bs') -> covered img bs r c = covered img bs' r c.
Proof.
  intros H. unfold covered. apply eq_true_iff_eq.
  rewrite !existsb_exists.
  split; intros (b & Hin & Hb); exists b; split; auto;
    apply list_elem_of_In; apply H; apply list_elem_of_In; exact Hin.
Qed.

(** Only the set of boxes matters. *)
Lemma paste_boxes_ext pix img (bs bs' : list box) :
  (forall b, b ∈ bs <-> b ∈ bs') ->
  paste_boxes pix img bs = paste_boxes pix img bs'.
Proof.
  intros H. rewrite !paste_boxes_data. f_equal.
  apply imap_ext; intros r row _. apply imap_ext; intros c p _.
  rewrite (covered_ext img bs bs' r c H). reflexivity.
Qed.

Lemma paste_boxes_twice pix img (boxes : list box) :
  paste_boxes pix (paste_boxes pix img boxes) boxes =
  paste_boxes pix img boxes.
Proof.
  unfold paste_boxes at 1 2. rewrite <- fold_left_app.
  apply paste_boxes_ext. intros b. rewrite elem_of_app. tauto.
Qed.

(** For a box within the frame the slice is the rectangle
    [x1..x2) x [y1..y2). *)
Lemma in_box_geometry img x1 y1 x2 y2 r c :
  box_in_frame (Z.of_nat (nrows img)) (Z.of_nat (ncols img)) (x1, y1, x2, y2) ->
  in_box img (x1, y1, x2, y2) r c = true <->
  (x1 <= Z.of_nat c < x2 /\ y1 <= Z.of_nat r < y2).
Proof.
  unfold box_in_frame, in_box, in_slice, slice_bound. intros H.
  rewrite !andb_true_iff, !Z.leb_le, !Z.ltb_lt.
  destruct (Z.ltb_spec x1 0), (Z.ltb_spec x2 0), (Z.ltb_spec y1 0),
    (Z.ltb_spec y2 0); lia.
Qed.

(** C1: the output of [anonymize] does not depend on the order of the
    boxes nor on how often a box occurs: a permutation of the sequence,
    the sequence with one of its boxes doubled, and more generally any
    sequence with the same boxes give the same frame (or the same
    error), for every frame and every sequence of boxes. *)
Theorem anonymize_order_and_duplicates W self img (boxes : list box) :
  (forall boxes', boxes ≡ₚ boxes' ->
     anonymize W self img boxes' = anonymize W self img boxes) /\
  (forall l1 b l2, boxes = l1 ++ b :: l2 ->
     anonymize W self img (l1 ++ b :: b :: l2) = anonymize W self img boxes) /\
  (forall boxes', (forall b, b ∈ boxes <-> b ∈ boxes') ->
     anonymize W self img boxes' = anonymize W self img boxes).
Proof.
  assert (Hext : forall boxes', (forall b, b ∈ boxes <-> b ∈ boxes') ->
     anonymize W self img boxes' = anonymize W self img boxes).
  { intros boxes' H. unfold anonymize.
    destruct (pixelate_frame W self img) as [pix|e]; cbn; [|reflexivity].
    f_equal. symmetry. apply paste_boxes_ext, H. }
  split; [|split].
  - intros boxes' Hp. apply Hext. intros b. rewrite Hp. reflexivity.
  - intros l1 b l2 ->. apply Hext. intros b'.
    rewrite !elem_of_app, !elem_of_cons. tauto.
  - exact Hext.
Qed.

Lemma anonymize_order_and_duplicates_witness :
  [(0, 0, 1, 2); (1, 0, 2, 1)] ≡ₚ [(1, 0, 2, 1); (0, 0, 1, 2)] /\
  anonymize small_world small_self small_frame [(1, 0, 2, 1); (0, 0, 1, 2)] =
  anonymize small_world small_self small_frame [(0, 0, 1, 2); (1, 0, 2, 1)] /\
  anonymize small_world small_self small_frame
    [(0, 0, 1, 2); (0, 0, 1, 2); (1, 0, 2, 1)] =
  anonymize small_world small_self small_frame [(0, 0, 1, 2); (1, 0, 2, 1)].
Proof.
  destruct (anonymize_order_and_duplicates small_world small_self small_frame
              [(0, 0, 1, 2); (1, 0, 2, 1)]) as (Hperm & Hdup & _).
  split; [apply Permutation_swap|]. split.
  - apply Hperm, Permutation_swap.
  - apply (Hdup [] (0, 0, 1, 2) [(1, 0, 2, 1)]). reflexivity.
Defined.

(** C7: when every box lies within the frame, a pixel outside all the
    rectangles [x1..x2) x [y1..y2) of the boxes has in the output of
    [anonymize] the value it has in the input. *)
Theorem anonymize_outside_boxes W self img (boxes : list box) out r c :
  Forall (box_in_frame (Z.of_nat (nrows img)) (Z.of_nat (ncols img))) boxes ->
  anonymize W self img boxes = Ok out ->
  (forall x1 y1 x2 y2, (x1, y1, x2, y2) ∈ boxes ->
     ~ (x1 <= Z.of_nat c < x2 /\ y1 <= Z.of_nat r < y2)) ->
  pixel_at out r c = pixel_at img r c.
Proof.
  intros Hin Han Hout. unfold anonymize in Han.
  destruct (pixelate_frame W self img) as [pix|e]; [|discriminate].
  cbn in Han. injection Han as <-.
  rewrite pixel_at_paste_boxes.
  assert (Hc : covered img boxes r c = false).
  { unfold covered. apply not_true_iff_false. rewrite existsb_exists.
    intros ([[[x1 y1] x2] y2] & Hb & Hbox). apply list_elem_of_In in Hb.
    rewrite Forall_forall in Hin.
    apply (in_box_geometry img) in Hbox; [|apply Hin, Hb].
    exact (Hout _ _ _ _ Hb Hbox). }
  rewrite Hc. destruct (pixel_at img r c); reflexivity.
Qed.

Lemma anonymize_outside_boxes_witness :
  exists out,
    anonymize small_world small_self small_frame [(0, 0, 1, 2)] = Ok out /\
    pixel_at out 1 1 = pixel_at small_frame 1 1.
Proof.
  eexists. split; [reflexivity|].
  apply (anonymize_outside_boxes small_world small_self small_frame
           [(0, 0, 1, 2)]).
  - repeat constructor; cbn; lia.
  - reflexivity.
  - intros x1 y1 x2 y2 Hin. apply list_elem_of_singleton in Hin.
    injection Hin as -> -> -> ->. cbn. lia.
Defined.

(** C4, as stated, fails: on the 2 x 2 frame with columns 0 and 8 and
    the box over the left column, the first pass writes the mosaic value
    4 into the column; the second pass computes its mosaic from that
    frame, finds 6, and writes 6. *)
Lemma anonymize_twice_differs :
  (out ← anonymize small_world small_self small_frame [(0, 0, 1, 2)];
   anonymize small_world small_self out [(0, 0, 1, 2)]) <>
  anonymize small_world small_self small_frame [(0, 0, 1, 2)].
Proof. vm_compute. discriminate. Qed.

(** C4, amended: copying the same boxes a second time from the same
    mosaic changes nothing; hence a second [anonymize] returns the frame
    of the first whenever the mosaic computed from that frame is the
    mosaic computed from the original. *)
Theorem anonymize_twice_same_mosaic W self img (boxes : list box) out pix :
  pixelate_frame W self img = Ok pix ->
  anonymize W self img boxes = Ok out ->
  paste_boxes pix out boxes = out /\
  (pixelate_frame W self out = Ok pix -> anonymize W self out boxes = Ok out).
Proof.
  intros Hpix Han. unfold anonymize in Han. rewrite Hpix in Han.
  cbn in Han. injection Han as <-.
  split; [apply paste_boxes_twice|].
  intros Hpix'. unfold anonymize. rewrite Hpix'. cbn. f_equal.
  apply paste_boxes_twice.
Qed.

Lemma anonymize_twice_same_mosaic_witness :
  exists out pix,
    pixelate_frame small_world small_self checker_frame = Ok pix /\
    anonymize small_world small_self checker_frame [(0, 0, 1, 2)] = Ok out /\
    out <> checker_frame /\
    pixelate_frame small_world small_self out = Ok pix /\
    paste_boxes pix out [(0, 0, 1, 2)] = out /\
    anonymize small_world small_self out [(0, 0, 1, 2)] = Ok out.
Proof.
  eexists. eexists.
  split; [reflexivity|]. split; [reflexivity|].
  split; [vm_compute; discriminate|]. split; [reflexivity|].
  pose proof (anonymize_twice_same_mosaic small_world small_self checker_frame
                [(0, 0, 1, 2)] _ _ eq_refl eq_refl) as [H1 H2].
  split; [exact H1 | apply H2; reflexivity].
Defined.

(** ** Bounding-box geometry *)

(** Splits [H : (x ← m; k) = Ok b] into the two steps that succeeded. *)
Ltac bind_ok H x Hx := apply bind_Ok in H as (x & Hx & H).

(** C6: a detection that covers the middle half of a 100 x 100 frame
    is the box (25,25)-(75,75), 50 wide and 50 high, and [face_expand]
    is 0.2: each side should move outward by 10.  The left and top
    sides do; the right and bottom sides move by 12, because they read
    the box after the left and top sides were moved, and the box
    [process_img] goes on with is (15,15)-(87,87), not (15,15)-(85,85).
    In the example of the claim, (30,30)-(50,50), the two amounts are
    the same, 4, and the box is (26,26)-(54,54). *)
Theorem bounding_box_grows_unevenly :
  raw_box 100 100 centre_bbox = Ok (25, 25, 75, 75) /\
  int_of_float (mul_int (face_expand default_self) (75 - 25)) = Ok 10 /\
  expand (face_expand default_self) (25, 25, 75, 75) = Ok (15, 15, 87, 87) /\
  bounding_box default_self 100 100 centre_bbox = Ok (15, 15, 87, 87) /\
  detections_boxes default_self 100 100 [centre_bbox] =
    ([(15, 15, 87, 87)], Ok tt) /\
  bounding_box default_self 100 100 sample_bbox = Ok (26, 26, 54, 54).
Proof. vm_compute. repeat split; reflexivity. Qed.

(** The two sides of a box need not grow by the same amount: the right
    side reads the width the left side has already enlarged. *)
Example expand_reads_the_grown_box :
  expand 0.5%float (0, 0, 10, 10) = Ok (-5, -5, 17, 17).
Proof. vm_compute. reflexivity. Qed.

Lemma clamp_in_frame m h w b :
  0 <= m -> too_small m (clamp h w b) = false ->
  box_in_frame h w (clamp h w b) /\ box_min_size m (clamp h w b).
Proof.
  destruct b as [[[x1 y1] x2] y2].
  unfold too_small, clamp, box_in_frame, box_min_size.
  intros Hm H. apply orb_false_elim in H as [H1 H2].
  apply Z.ltb_ge in H1, H2. lia.
Qed.

Lemma detections_boxes_in_frame self h w dets :
  0 <= face_min_size self ->
  Forall (fun b => box_in_frame h w b /\ box_min_size (face_min_size self) b)
         (detections_boxes self h w dets).1.
Proof.
  intros Hm. induction dets as [|d dets IH]; cbn; [constructor|].
  unfold bounding_box.
  destruct (raw_box h w d) as [rb|]; cbn; [|constructor].
  destruct (expand (face_expand self) rb) as [eb|]; cbn; [|constructor].
  destruct (detections_boxes self h w dets) as [bs r]. cbn in IH.
  destruct (too_small _ _) eqn:Hs; cbn; [exact IH|].
  constructor; [|exact IH]. apply clamp_in_frame; assumption.
Qed.

Lemma process_img_in_frame W self img :
  0 <= face_min_size self ->
  Forall (detected_box self (nrows img) (ncols img))
         (process_img W self img).1.
Proof.
  intros Hm. unfold process_img.
  destruct (_ ← cvtColor W img; _) as [dets|]; cbn; [|constructor].
  apply detections_boxes_in_frame, Hm.
Qed.

(** ** Tiles *)

(** [n] truncated steps fit into [d]. *)
Lemma step_fits d n i :
  0 <= d -> 0 <= i < n ->
  0 <= i * Z.quot d n /\ i * Z.quot d n <= (i + 1) * Z.quot d n /\
  (i + 1) * Z.quot d n <= d.
Proof.
  intros Hd Hi.
  assert (Hn : 0 < n) by lia.
  rewrite Z.quot_div_nonneg by lia.
  pose proof (Z.div_pos d n Hd Hn) as Hq.
  pose proof (Z.mul_div_le d n Hn) as Hle.
  nia.
Qed.

Lemma sliding_window_tiles_in_frame img s tiles :
  sliding_window_tiles img s = Ok tiles ->
  Forall (tile_in_frame (Z.of_nat (nrows img)) (Z.of_nat (ncols img))) tiles.
Proof.
  unfold sliding_window_tiles, shape. intros H.
  bind_ok H wx Hwx. bind_ok H wy Hwy.
  bind_ok H sx Hsx. bind_ok H sy Hsy.
  apply int_div_Ok in Hsx as [_ ->], Hsy as [_ ->].
  injection H as <-.
  apply Forall_forall. intros [[[x1 x2] y1] y2] Hin.
  apply list_elem_of_In, in_flat_map in Hin as (i & Hi & Hin).
  apply list_elem_of_In, list_elem_of_fmap in Hin as (j & Heq & Hj).
  apply list_elem_of_In, elem_of_range in Hi. apply elem_of_range in Hj.
  injection Heq as -> -> -> ->.
  unfold tile_in_frame.
  pose proof (step_fits (Z.of_nat (nrows img)) wx i ltac:(lia) Hi).
  pose proof (step_fits (Z.of_nat (ncols img)) wy j ltac:(lia) Hj).
  lia.
Qed.

(** The tiles of a frame are the products of the tiles of its axes. *)
Lemma sliding_window_tiles_axes img s :
  sliding_window_tiles img s =
  (xs ← axis_tiles (Z.of_nat (nrows img)) s;
   ys ← axis_tiles (Z.of_nat (ncols img)) s;
   Ok (flat_map (fun x => map (fun y => (x.1, x.2, y.1, y.2)) ys) xs)).
Proof.
  unfold sliding_window_tiles, axis_tiles, shape, ceil_div_half, int_div.
  destruct (Z.eqb_spec s 0); [reflexivity|]. cbn.
  destruct (Z.eqb_spec (- (- (2 * Z.of_nat (nrows img)) / s)) 0);
    destruct (Z.eqb_spec (- (- (2 * Z.of_nat (ncols img)) / s)) 0); cbn;
    try reflexivity.
  f_equal. rewrite flat_map_fmap. apply flat_map_ext. intros i.
  rewrite map_map. reflexivity.
Qed.

Lemma ceil_half_bounds d s :
  1 <= d -> 1 <= s ->
  1 <= - ((- (2 * d)) / s) /\
  2 * d <= - ((- (2 * d)) / s) * s /\
  (- ((- (2 * d)) / s) - 1) * s < 2 * d.
Proof.
  intros Hd Hs.
  pose proof (Z.div_mod (- (2 * d)) s ltac:(lia)) as Hdm.
  pose proof (Z.mod_pos_bound (- (2 * d)) s ltac:(lia)) as Hm.
  nia.
Qed.

(** Along an axis of length [d >= 1], for a window size [s >= 1]:
    [ceil(2d/s)] tiles, each one truncated step long. *)
Lemma axis_tiles_closed_form d s :
  1 <= d -> 1 <= s ->
  exists windows step,
    windows = (2 * d + s - 1) / s /\
    step = d / windows /\
    axis_tiles d s =
      Ok (map (fun i => (i * step, (i + 1) * step)) (range windows)) /\
    1 <= windows /\ 0 <= step /\
    2 * step <= s /\
    windows * step <= d /\ d - windows * step < windows.
Proof.
  intros Hd Hs.
  destruct (ceil_half_bounds d s Hd Hs) as (Hn1 & Hn2 & Hn3).
  set (n := - ((- (2 * d)) / s)) in *.
  assert (Hn : n = (2 * d + s - 1) / s).
  { apply Z.div_unique with (r := 2 * d + s - 1 - n * s); [left; lia | ring]. }
  exists n, (d / n). split; [exact Hn|]. split; [reflexivity|].
  pose proof (Z.div_pos d n ltac:(lia) ltac:(lia)) as Hq.
  pose proof (Z.mul_div_le d n ltac:(lia)) as Hle.
  pose proof (Z.mod_pos_bound d n ltac:(lia)) as Hmod.
  pose proof (Z.div_mod d n ltac:(lia)) as Hdm.
  split.
  { unfold axis_tiles, ceil_div_half, int_div.
    destruct (Z.eqb_spec s 0); [lia|]. cbn. fold n.
    destruct (Z.eqb_spec n 0); [lia|]. cbn.
    rewrite Z.quot_div_nonneg by lia. reflexivity. }
  repeat split; try lia; nia.
Qed.

(** The tiles of an axis cover exactly [0, windows * step): the last
    [d mod windows] coordinates lie in no tile. *)
Lemma axis_tiles_cover d s p :
  1 <= d -> 1 <= s ->
  exists tiles windows,
    axis_tiles d s = Ok tiles /\
    windows = (2 * d + s - 1) / s /\
    (covers tiles p <-> 0 <= p < windows * (d / windows)).
Proof.
  intros Hd Hs.
  destruct (axis_tiles_closed_form d s Hd Hs)
    as (n & step & Hn & Hstep & Ht & Hn1 & Hs0 & _ & Hfit & _).
  eexists _, n. split; [exact Ht|]. split; [exact Hn|]. rewrite <- Hstep.
  unfold covers. split.
  - intros (a & b & Hin & Hp).
    apply list_elem_of_fmap in Hin as (i & Heq & Hi). apply elem_of_range in Hi.
    injection Heq as -> ->. nia.
  - intros Hp. assert (0 < step) by nia.
    exists (p / step * step), ((p / step + 1) * step). split.
    + apply list_elem_of_fmap. exists (p / step). split; [reflexivity|].
      apply elem_of_range. split; [apply Z.div_pos; lia|].
      apply Z.div_lt_upper_bound; lia.
    + pose proof (Z.div_mod p step ltac:(lia)).
      pose proof (Z.mod_pos_bound p step ltac:(lia)). nia.
Qed.

(** C2 fails on the code: along an axis of 1000 pixels the tiles of
    window size 700 are [0,333), [333,666) and [666,999); pixel 999 lies
    in none of them.  On a 1000 x 1000 frame no tile of that window size
    reaches row 999 or column 999. *)
Theorem sliding_window_misses_last_row :
  axis_tiles 1000 700 = Ok [(0, 333); (333, 666); (666, 999)] /\
  0 <= 999 < 1000 /\
  ~ covers [(0, 333); (333, 666); (666, 999)] 999 /\
  exists tiles,
    sliding_window_tiles frame_1000 700 = Ok tiles /\
    Forall (fun t : tile =>
              let '(x1, x2, y1, y2) := t in x2 <= 999 /\ y2 <= 999) tiles.
Proof.
  split; [reflexivity|]. split; [lia|]. split.
  - intros (a & b & Hin & Hp).
    repeat (apply elem_of_cons in Hin as [Heq|Hin];
            [injection Heq as -> ->; lia|]).
    apply elem_of_nil in Hin as [].
  - eexists. split; [reflexivity|].
    lazy. repeat constructor; discriminate.
Qed.

(** C5, as stated, fails: on a 1080 x 1920 frame the tiles of window
    size 400 are 180 rows by 192 columns, neither square nor 400 wide,
    and the next tile starts 192 columns on, not 200. *)
Lemma tiles_are_not_window_sized :
  exists rest,
    sliding_window_tiles frame_1080x1920 400 =
      Ok ((0, 180, 0, 192) :: (0, 180, 192, 384) :: rest) /\
    180 - 0 <> 400 /\ 192 - 0 <> 400 /\ 192 - 0 <> 400 / 2.
Proof. eexists. split; [reflexivity|]. repeat split; discriminate. Qed.

(** C5, amended: for a window size [s >= 1] and an axis of length
    [d >= 1] there are [ceil(2d/s)] tiles along the axis; successive
    tile origins are one step [floor(d / tiles)] apart, which is at most
    [s/2]; and no tile overruns the frame: every tile lies within
    [0, d]. *)
Theorem axis_tiles_steps d s :
  1 <= d -> 1 <= s ->
  exists tiles windows step,
    axis_tiles d s = Ok tiles /\
    windows = (2 * d + s - 1) / s /\
    step = d / windows /\
    map fst tiles = map (fun i => i * step) (range windows) /\
    2 * step <= s /\
    Forall (fun t => 0 <= t.1 <= t.2 /\ t.2 <= d) tiles.
Proof.
  intros Hd Hs.
  destruct (axis_tiles_closed_form d s Hd Hs)
    as (n & step & Hn & Hstep & Ht & Hn1 & Hs0 & Hhalf & Hfit & _).
  eexists _, n, step. split; [exact Ht|].
  split; [exact Hn|]. split; [exact Hstep|].
  split; [rewrite map_map; reflexivity|]. split; [exact Hhalf|].
  apply Forall_fmap, Forall_forall. intros i Hi.
  apply elem_of_range in Hi. cbn. nia.
Qed.

Lemma axis_tiles_steps_witness :
  exists tiles windows step,
    axis_tiles 1080 400 = Ok tiles /\
    windows = (2 * 1080 + 400 - 1) / 400 /\
    step = 1080 / windows /\
    map fst tiles = map (fun i => i * step) (range windows) /\
    2 * step <= 400 /\
    Forall (fun t => 0 <= t.1 <= t.2 /\ t.2 <= 1080) tiles.
Proof. apply (axis_tiles_steps 1080 400); lia. Defined.

(** ** The generators *)

Section GenSpec.
Context (pix : ndarray) (h w : nat) (P : box -> Prop).

Lemma gen_spec_ret {A : Type} (a : A) : gen_spec pix h w P (gen_ret a).
Proof. intros img _ _. cbn. auto. Qed.

Lemma gen_spec_yield_from ys :
  Forall P ys.1 -> gen_spec pix h w P (yield_from pix ys).
Proof. intros H img _ _. cbn. auto. Qed.

Lemma gen_spec_bind {A B : Type} (m : Gen A) (f : A -> Gen B) :
  gen_spec pix h w P m -> (forall a, gen_spec pix h w P (f a)) ->
  gen_spec pix h w P (gen_bind m f).
Proof.
  intros Hm Hf img Hh Hw. unfold gen_bind.
  specialize (Hm img Hh Hw).
  destruct (m img) as [[img1 bs1] [a|e]]; cbn in *; [|exact Hm].
  destruct Hm as [HP ->].
  destruct (paste_boxes_shape pix bs1 img) as [Hh1 Hw1].
  specialize (Hf a (paste_boxes pix img bs1)
                ltac:(congruence) ltac:(congruence)).
  destruct (f a _) as [[img2 bs2] r2]; cbn in *.
  destruct Hf as [HP2 ->]. split.
  - apply Forall_app; auto.
  - unfold paste_boxes. rewrite fold_left_app. reflexivity.
Qed.

(** A generator that looks at the frame as it stands. *)
Lemma gen_spec_read {B : Type} (f : ndarray -> Gen B) :
  (forall img, nrows img = h -> ncols img = w -> gen_spec pix h w P (f img)) ->
  gen_spec pix h w P (gen_bind read f).
Proof.
  intros Hf img Hh Hw. unfold gen_bind, read.
  specialize (Hf img Hh Hw img Hh Hw).
  destruct (f img img) as [[img2 bs2] r2]; cbn in *. exact Hf.
Qed.

Lemma gen_spec_lift_bind {A B : Type} (r : res A) (f : A -> Gen B) :
  (forall a, r = Ok a -> gen_spec pix h w P (f a)) ->
  gen_spec pix h w P (gen_bind (lift r) f).
Proof.
  intros Hf img Hh Hw. unfold gen_bind, lift.
  destruct r as [a|e]; cbn; [|auto].
  specialize (Hf a eq_refl img Hh Hw).
  destruct (f a img) as [[img2 bs2] r2]; cbn in *. exact Hf.
Qed.

Lemma gen_spec_for_each {A : Type} (l : list A) (body : A -> Gen unit) :
  Forall (fun x => gen_spec pix h w P (body x)) l ->
  gen_spec pix h w P (for_each l body).
Proof.
  induction 1 as [|x l Hx _ IH]; cbn.
  - apply gen_spec_ret.
  - apply gen_spec_bind; auto.
Qed.

End GenSpec.

Section Detection.
Context (W : World) (self : FaceAnonymizer) (pix : ndarray) (h w : nat).
Context (P : box -> Prop).
Hypothesis P_tile : forall img x1 x2 y1 y2,
  nrows img = h -> ncols img = w ->
  tile_in_frame (Z.of_nat h) (Z.of_nat w) (x1, x2, y1, y2) ->
  Forall P (map (translate (x1, x2, y1, y2))
                (process_img W self (view img x1 x2 y1 y2)).1).
Hypothesis P_frame : forall img,
  nrows img = h -> ncols img = w -> Forall P (process_img W self img).1.

Lemma sliding_window_spec s :
  gen_spec pix h w P (sliding_window W self pix s).
Proof.
  unfold sliding_window. apply gen_spec_read; intros img Hh Hw.
  apply gen_spec_lift_bind; intros tiles Ht.
  apply sliding_window_tiles_in_frame in Ht. rewrite Hh, Hw in Ht.
  apply gen_spec_for_each.
  eapply Forall_impl; [exact Ht|]. intros [[[x1 x2] y1] y2] Htile.
  apply gen_spec_read; intros img' Hh' Hw'.
  pose proof (P_tile img' _ _ _ _ Hh' Hw' Htile) as Hb.
  destruct (process_img W self (view img' x1 x2 y1 y2)) as [bs r].
  apply gen_spec_yield_from. exact Hb.
Qed.

Lemma sliding_windows_spec :
  gen_spec pix h w P (sliding_windows W self pix).
Proof.
  unfold sliding_windows. apply gen_spec_for_each.
  apply Forall_forall. intros s _. apply sliding_window_spec.
Qed.

Lemma detection_spec :
  gen_spec pix h w P
    (gen_bind (sliding_windows W self pix) (fun _ =>
     gen_bind read (fun img => yield_from pix (process_img W self img)))).
Proof.
  apply gen_spec_bind; [apply sliding_windows_spec|]. intros _.
  apply gen_spec_read; intros img Hh Hw.
  apply gen_spec_yield_from. apply P_frame; assumption.
Qed.

End Detection.

Lemma view_shape img x1 x2 y1 y2 :
  tile_in_frame (Z.of_nat (nrows img)) (Z.of_nat (ncols img))
                (x1, x2, y1, y2) ->
  Z.of_nat (nrows (view img x1 x2 y1 y2)) = x2 - x1 /\
  Z.of_nat (ncols (view img x1 x2 y1 y2)) = y2 - y1.
Proof.
  unfold tile_in_frame, view, shape. cbn. unfold slice_len, slice_bound.
  intros H.
  destruct (Z.ltb_spec x1 0), (Z.ltb_spec x2 0), (Z.ltb_spec y1 0),
    (Z.ltb_spec y2 0); lia.
Qed.

Lemma translate_in_frame m h w x1 x2 y1 y2 b :
  tile_in_frame h w (x1, x2, y1, y2) ->
  box_in_frame (x2 - x1) (y2 - y1) b /\ box_min_size m b ->
  box_in_frame h w (translate (x1, x2, y1, y2) b) /\
  box_min_size m (translate (x1, x2, y1, y2) b).
Proof.
  destruct b as [[[fx1 fy1] fx2] fy2].
  unfold tile_in_frame, box_in_frame, box_min_size, translate. lia.
Qed.

Lemma tile_boxes_detected W self img x1 x2 y1 y2 :
  0 <= face_min_size self ->
  tile_in_frame (Z.of_nat (nrows img)) (Z.of_nat (ncols img))
                (x1, x2, y1, y2) ->
  Forall (detected_box self (nrows img) (ncols img))
         (map (translate (x1, x2, y1, y2))
              (process_img W self (view img x1 x2 y1 y2)).1).
Proof.
  intros Hmin Ht. apply Forall_fmap.
  pose proof (process_img_in_frame W self (view img x1 x2 y1 y2) Hmin) as Hb.
  unfold detected_box in Hb.
  destruct (view_shape img x1 x2 y1 y2 Ht) as [-> ->] in Hb.
  eapply Forall_impl; [exact Hb|]. intros b Hb'. cbn.
  exact (translate_in_frame _ _ _ x1 x2 y1 y2 b Ht Hb').
Qed.

(** [process] is [anonymize] at the boxes its generators yield: the
    frame it leaves is its argument with those boxes pasted from the
    mosaic of the argument. *)
Lemma process_anonymize W self img pix :
  pixelate_frame W self img = Ok pix ->
  anonymize W self img (process W self img).1.2 =
  Ok (process W self img).1.1.
Proof.
  intros Hpix. unfold anonymize. rewrite Hpix. cbn. f_equal.
  unfold process. rewrite Hpix.
  destruct (detection_spec W self pix (nrows img) (ncols img)
              (fun _ => True)) with (img := img) as [_ Hout];
    try reflexivity.
  - intros. apply Forall_forall. auto.
  - intros. apply Forall_forall. auto.
  - symmetry. exact Hout.
Qed.

(** C3: for a frame of width W and height H, every non-negative
    [face_min_size] and whatever the detector returns, every box that
    the sliding-window passes and the full-frame pass yield satisfies
    0 <= x1 <= x2 <= W, 0 <= y1 <= y2 <= H, x2 - x1 >= face_min_size and
    y2 - y1 >= face_min_size. *)
Theorem process_boxes_in_frame W self img x1 y1 x2 y2 :
  0 <= face_min_size self ->
  (x1, y1, x2, y2) ∈ (process W self img).1.2 ->
  (0 <= x1 <= x2 /\ x2 <= Z.of_nat (ncols img)) /\
  (0 <= y1 <= y2 /\ y2 <= Z.of_nat (nrows img)) /\
  face_min_size self <= x2 - x1 /\
  face_min_size self <= y2 - y1.
Proof.
  intros Hm Hin. unfold process in Hin.
  destruct (pixelate_frame W self img) as [pix|e]; cbn in Hin.
  2:{ apply elem_of_nil in Hin as []. }
  destruct (detection_spec W self pix (nrows img) (ncols img)
              (detected_box self (nrows img) (ncols img)))
    with (img := img) as [Hall _]; try reflexivity.
  - intros im a b c d Hh Hw Ht. rewrite <- Hh, <- Hw in *.
    apply tile_boxes_detected; assumption.
  - intros im Hh Hw. rewrite <- Hh, <- Hw.
    apply process_img_in_frame, Hm.
  - rewrite Forall_forall in Hall. specialize (Hall _ Hin).
    destruct Hall as [Hf Hs].
    unfold box_in_frame in Hf. unfold box_min_size in Hs. lia.
Qed.

Lemma process_boxes_in_frame_witness :
  (26, 26, 54, 54) ∈ (process face_world default_self frame_100).1.2 /\
  (0 <= 26 <= 54 /\ 54 <= Z.of_nat (ncols frame_100)) /\
  (0 <= 26 <= 54 /\ 54 <= Z.of_nat (nrows frame_100)) /\
  face_min_size default_self <= 54 - 26 /\
  face_min_size default_self <= 54 - 26.
Proof.
  assert (Hin : (26, 26, 54, 54) ∈
                (process face_world default_self frame_100).1.2).
  { apply list_elem_of_In. vm_compute. left. reflexivity. }
  split; [exact Hin|].
  apply (process_boxes_in_frame face_world default_self frame_100 26 26 54 54);
    [vm_compute; discriminate | exact Hin].
Defined.

(** ** Events of a run *)

Lemma io_bind_events {A B : Type} (m : IO A) (f : A -> IO B) :
  (x ← m; f x).1 =
  m.1 ++ match m.2 with Ok a => (f a).1 | Raise _ => [] end.
Proof.
  destruct m as [evs [a|e]]; cbn.
  - destruct (f a); reflexivity.
  - rewrite app_nil_r. reflexivity.
Qed.

Lemma io_bind_result {A B : Type} (m : IO A) (f : A -> IO B) :
  (x ← m; f x).2 = match m.2 with Ok a => (f a).2 | Raise e => Raise e end.
Proof.
  destruct m as [evs [a|e]]; cbn; [|reflexivity]. destruct (f a); reflexivity.
Qed.

Lemma call_events cb e : (call cb e).1 = if cb then [e] else [].
Proof. destruct cb; reflexivity. Qed.

Lemma call_result cb e : (call cb e).2 = Ok tt.
Proof. destruct cb; reflexivity. Qed.

Lemma jobs_app a b : jobs (a ++ b) = jobs a ++ jobs b.
Proof. apply omap_app. Qed.

Lemma global_values_app a b :
  global_values (a ++ b) = global_values a ++ global_values b.
Proof. apply omap_app. Qed.

Lemma local_values_app a b :
  local_values (a ++ b) = local_values a ++ local_values b.
Proof. apply omap_app. Qed.

Lemma jobs_media evs : Forall media_event evs -> jobs evs = [].
Proof.
  induction 1 as [|e evs He _ IH]; [reflexivity|].
  destruct e; cbn in *; try contradiction; exact IH.
Qed.

Lemma global_values_media evs : Forall media_event evs -> global_values evs = [].
Proof.
  induction 1 as [|e evs He _ IH]; [reflexivity|].
  destruct e; cbn in *; try contradiction; exact IH.
Qed.

Lemma video_loop_cons W self total pos frame rest :
  video_loop W self total pos (frame :: rest) =
  let '(img, _, r) := process W self frame in
  _ ← ([], r) : IO unit;
  _ ← emit (out_write img);
  _ ← call (local_progress_callback self)
           (local_progress (bar_pct (pos + 1) total));
  video_loop W self total (pos + 1) rest.
Proof. reflexivity. Qed.

Lemma video_loop_events W self total pos frame rest :
  (video_loop W self total pos (frame :: rest)).1 =
  let '(img, _, r) := process W self frame in
  match r with
  | Ok _ =>
      out_write img ::
      (if local_progress_callback self
       then [local_progress (bar_pct (pos + 1) total)] else []) ++
      (video_loop W self total (pos + 1) rest).1
  | Raise _ => []
  end.
Proof.
  rewrite video_loop_cons.
  destruct (process W self frame) as [[img bs] [[]|e]]; [|reflexivity].
  rewrite !io_bind_events, call_events, call_result. reflexivity.
Qed.

Lemma video_loop_result W self total pos frame rest :
  (video_loop W self total pos (frame :: rest)).2 =
  match (process W self frame).2 with
  | Ok _ => (video_loop W self total (pos + 1) rest).2
  | Raise e => Raise e
  end.
Proof.
  rewrite video_loop_cons.
  destruct (process W self frame) as [[img bs] [[]|e]]; [|reflexivity].
  rewrite !io_bind_result, call_result. reflexivity.
Qed.

Lemma video_loop_media W self total : forall fs pos,
  Forall media_event (video_loop W self total pos fs).1.
Proof.
  induction fs as [|frame rest IH]; intros pos; [constructor|].
  rewrite video_loop_events.
  destruct (process W self frame) as [[img bs] [[]|e]]; [|constructor].
  constructor; [exact I|]. apply Forall_app. split; [|apply IH].
  destruct (local_progress_callback self); repeat constructor.
Qed.

(** [process_video_file], event by event. *)
Lemma process_video_file_eq W self in_path out_path :
  process_video_file W self in_path out_path =
  let capture := VideoCapture W in_path in
  let loop :=
    if isOpened capture
    then video_loop W self (CAP_PROP_FRAME_COUNT capture) 0 (frames capture)
    else mret tt in
  (VideoWriter out_path (CAP_PROP_FPS capture) (CAP_PROP_FRAME_WIDTH capture)
               (CAP_PROP_FRAME_HEIGHT capture) ::
   loop.1 ++ match loop.2 with
             | Ok _ => [capture_release; out_release]
             | Raise _ => []
             end,
   loop.2).
Proof.
  unfold process_video_file. cbn zeta.
  set (loop := if isOpened _ then _ else _).
  destruct loop as [evs [[]|e]]; cbn; [reflexivity|].
  rewrite app_nil_r. reflexivity.
Qed.

Lemma process_video_file_media W self in_path out_path :
  Forall media_event (process_video_file W self in_path out_path).1.
Proof.
  rewrite process_video_file_eq. cbn zeta. cbn [fst].
  constructor; [exact I|].
  destruct (isOpened (VideoCapture W in_path)).
  - apply Forall_app. split; [apply video_loop_media|].
    destruct (video_loop _ _ _ _ _).2; repeat constructor.
  - repeat constructor.
Qed.

Lemma process_image_file_media W self in_path out_path :
  Forall media_event (process_image_file W self in_path out_path).1.
Proof.
  unfold process_image_file.
  destruct (imread W in_path) as [img|]; [|constructor].
  destruct (process W self img) as [[img' bs] [[]|e]]; cbn;
    [|constructor].
  destruct (cv2_imwrite W out_path img') as [b|e]; repeat constructor.
Qed.

(** The events of [_process_file]: the progress call, the announcement,
    the events of the media, and the closing message on success. *)
Lemma _process_file_events W self filename out_filepath progress :
  exists media_evs tail,
    Forall media_event media_evs /\
    (tail = [] \/ exists out, tail = [echo_saved (filetype_of filename) out]) /\
    (_process_file W self filename out_filepath progress).1 =
      (if global_progress_callback self
       then [global_progress progress (filetype_of filename) filename]
       else []) ++
      echo_processing (filetype_of filename) filename :: media_evs ++ tail.
Proof.
  unfold _process_file, filetype_of.
  destruct (str_in (suffix filename) video_extensions).
  - rewrite !io_bind_events, call_events, call_result. cbn [emit fst snd].
    exists (process_video_file W self filename
              (with_suffix out_filepath ".mp4")).1.
    pose proof (process_video_file_media W self filename
                  (with_suffix out_filepath ".mp4")) as Hm.
    destruct (process_video_file _ _ _ _) as [evs [[]|e]]; cbn.
    + exists [echo_saved video (with_suffix out_filepath ".mp4")].
      split; [exact Hm|]. split; [right; eauto|]. reflexivity.
    + exists []. split; [exact Hm|]. split; [left; reflexivity|].
      rewrite app_nil_r. reflexivity.
  - rewrite !io_bind_events, call_events, call_result. cbn [emit fst snd].
    exists (process_image_file W self filename out_filepath).1.
    pose proof (process_image_file_media W self filename out_filepath) as Hm.
    destruct (process_image_file _ _ _ _) as [evs [[]|e]]; cbn.
    + exists [echo_saved image out_filepath].
      split; [exact Hm|]. split; [right; eauto|]. reflexivity.
    + exists []. split; [exact Hm|]. split; [left; reflexivity|].
      rewrite app_nil_r. reflexivity.
Qed.

Lemma _process_file_jobs W self filename out_filepath progress :
  jobs (_process_file W self filename out_filepath progress).1 =
  [(filetype_of filename, filename)].
Proof.
  destruct (_process_file_events W self filename out_filepath progress)
    as (m & t & Hm & Ht & ->).
  rewrite jobs_app. cbn. rewrite jobs_app, (jobs_media m Hm).
  destruct (global_progress_callback self); destruct Ht as [->|[out ->]];
    reflexivity.
Qed.

Lemma _process_file_global W self filename out_filepath progress :
  global_values (_process_file W self filename out_filepath progress).1 =
  if global_progress_callback self then [progress] else [].
Proof.
  destruct (_process_file_events W self filename out_filepath progress)
    as (m & t & Hm & Ht & ->).
  rewrite global_values_app. cbn.
  rewrite global_values_app, (global_values_media m Hm).
  destruct (global_progress_callback self); destruct Ht as [->|[out ->]];
    reflexivity.
Qed.

Lemma dir_loop_cons W self path out_path total pos filename rest :
  dir_loop W self path out_path total pos (filename :: rest) =
  let out_subpath :=
    out_path ++ drop (length (components path)) (parent filename) in
  _ ← emit (mkdir out_subpath);
  let out_filepath :=
    {| parent := out_subpath;
       stem := stem filename;
       suffix := suffix filename |} in
  _ ← _process_file W self filename out_filepath (bar_pct pos total);
  dir_loop W self path out_path total (if isatty W then pos + 1 else pos) rest.
Proof. reflexivity. Qed.

(** ** Order of a batch *)

Lemma insert_by_false {A : Type} (key : A -> bool) x l :
  key x = false -> insert_by key x l = x :: l.
Proof. intros H. destruct l; cbn; [reflexivity|]. rewrite H. reflexivity. Qed.

Lemma insert_by_true {A : Type} (key : A -> bool) x (F T : list A) :
  key x = true ->
  Forall (fun y => key y = false) F -> Forall (fun y => key y = true) T ->
  insert_by key x (F ++ T) = F ++ x :: T.
Proof.
  intros Hx HF HT. induction HF as [|y F Hy _ IH]; cbn.
  - destruct HT as [|z T Hz _]; cbn; [reflexivity|].
    rewrite Hx, Hz. reflexivity.
  - rewrite Hx, Hy. cbn. f_equal. exact IH.
Qed.

Lemma stable_sort_bool {A : Type} (key : A -> bool) (l : list A) :
  stable_sort key l =
  filter (fun x => negb (key x)) l ++ filter (fun x => key x) l.
Proof.
  induction l as [|x l IH]; [reflexivity|].
  unfold stable_sort in *. cbn [foldr]. rewrite IH.
  rewrite !filter_cons. destruct (key x) eqn:Hx; cbn.
  - rewrite decide_False, decide_True by (cbn; auto).
    apply insert_by_true; [exact Hx| |].
    + apply Forall_forall. intros y Hy.
      apply list_elem_of_filter in Hy as [Hy _].
      destruct (key y); [destruct Hy | reflexivity].
    + apply Forall_forall. intros y Hy.
      apply list_elem_of_filter in Hy as [Hy _].
      destruct (key y); [reflexivity | destruct Hy].
  - rewrite decide_True, decide_False by (cbn; auto).
    apply insert_by_false, Hx.
Qed.

(** Sorting by a boolean key in decreasing order puts the elements the
    key holds of first and keeps the order within each group. *)
Lemma sorted_reverse_bool {A : Type} (key : A -> bool) (l : list A) :
  sorted_reverse key l =
  filter (fun x => key x) l ++ filter (fun x => negb (key x)) l.
Proof.
  unfold sorted_reverse. rewrite stable_sort_bool, reverse_app.
  rewrite !filter_reverse, !reverse_involutive. reflexivity.
Qed.

Lemma extension_kinds s :
  str_in s supported_extensions = true ->
  str_in s image_extensions = negb (str_in s video_extensions).
Proof.
  unfold str_in, supported_extensions, video_extensions, image_extensions.
  cbn [existsb app].
  destruct (String.eqb_spec s ".mp4") as [->|]; [reflexivity|].
  destruct (String.eqb_spec s ".avi") as [->|]; [reflexivity|].
  destruct (String.eqb_spec s ".mov") as [->|]; [reflexivity|].
  cbn. intros ->. reflexivity.
Qed.

Lemma eligible_kind W path f :
  f ∈ eligible W path ->
  (is_image f = true <-> filetype_of f = image) /\
  (is_image f = false <-> filetype_of f = video).
Proof.
  intros Hf. apply list_elem_of_filter in Hf as [Hf _].
  apply Is_true_true, andb_true_iff in Hf as [_ Hs].
  unfold is_image, filetype_of. rewrite (extension_kinds _ Hs).
  destruct (str_in (suffix f) video_extensions); cbn; split; split;
    congruence.
Qed.

Lemma dir_loop_jobs W self path out_path total : forall files pos,
  jobs (dir_loop W self path out_path total pos files).1 `prefix_of`
    map (fun f => (filetype_of f, f)) files /\
  ((dir_loop W self path out_path total pos files).2 = Ok tt ->
   jobs (dir_loop W self path out_path total pos files).1 =
   map (fun f => (filetype_of f, f)) files).
Proof.
  induction files as [|f rest IH]; intros pos.
  - cbn. split; reflexivity.
  - rewrite dir_loop_cons. cbn zeta.
    rewrite !io_bind_events, !io_bind_result. cbn [emit fst snd app].
    change (jobs (mkdir ?d :: ?l)) with (jobs l).
    rewrite jobs_app, _process_file_jobs.
    destruct (_process_file _ _ _ _ _).2 as [[]|e].
    + destruct (IH (if isatty W then pos + 1 else pos)) as [IH1 IH2].
      cbn. split.
      * apply prefix_cons, IH1.
      * intros H. f_equal. apply IH2, H.
    + cbn. split; [|discriminate]. apply prefix_cons, prefix_nil.
Qed.

(** C9: [process_dir] orders the eligible files with every image before
    every video and, within each kind, in the order enumeration found
    them; it starts on the files in that order - on all of them when it
    returns, on a prefix of them when a file makes it raise. *)
Theorem process_dir_images_first W self path :
  files_to_process W path =
    filter (fun f => filetype_of f = image) (eligible W path) ++
    filter (fun f => filetype_of f = video) (eligible W path) /\
  jobs (process_dir W self path).1 `prefix_of`
    map (fun f => (filetype_of f, f)) (files_to_process W path) /\
  (forall out, (process_dir W self path).2 = Ok out ->
     jobs (process_dir W self path).1 =
     map (fun f => (filetype_of f, f)) (files_to_process W path)).
Proof.
  split.
  - unfold files_to_process. fold (eligible W path).
    rewrite sorted_reverse_bool. f_equal.
    + apply filter_ext_elem. intros f Hf.
      destruct (eligible_kind W path f Hf) as [H _]. fold (is_image f).
      rewrite <- H. destruct (is_image f); cbn; intuition congruence.
    + apply filter_ext_elem. intros f Hf.
      destruct (eligible_kind W path f Hf) as [_ H]. fold (is_image f).
      rewrite <- H. destruct (is_image f); cbn; intuition congruence.
  - unfold process_dir. cbn zeta.
    rewrite io_bind_events, io_bind_result.
    pose proof (dir_loop_jobs W self path
                  (parent path ++ [(stem path ++ "_anonymized")%string])
                  (Z.of_nat (length (files_to_process W path)))
                  (files_to_process W path) 0) as [Hpre Heq].
    destruct (dir_loop _ _ _ _ _ _ _) as [evs [[]|e]]; cbn [fst snd] in *.
    + cbn. rewrite app_nil_r. split; [exact Hpre|].
      intros _ _. apply Heq. reflexivity.
    + rewrite app_nil_r. split; [exact Hpre|]. intros out H. discriminate.
Qed.

(** ** Progress *)

Lemma bar_pct_nonneg p n : 0 <= p -> (0 <= bar_pct p n)%Q.
Proof.
  intros Hp. unfold bar_pct.
  destruct (Z.eqb_spec p 0); [apply Qle_refl|].
  destruct (Z.leb_spec n p); [discriminate|].
  unfold Qle; cbn. lia.
Qed.

Lemma bar_pct_mono p p' n :
  0 <= p <= p' -> (bar_pct p n <= bar_pct p' n)%Q.
Proof.
  intros Hp. unfold bar_pct at 1.
  destruct (Z.eqb_spec p 0); [apply bar_pct_nonneg; lia|].
  unfold bar_pct.
  destruct (Z.eqb_spec p' 0); [lia|].
  destruct (Z.leb_spec n p), (Z.leb_spec n p'); try lia.
  - apply Qle_refl.
  - unfold Qle; cbn. rewrite Z2Pos.id by lia. lia.
  - unfold Qle; cbn. rewrite Z2Pos.id by lia. nia.
Qed.

Lemma bar_pct_lt_1 p n : 0 <= p < n -> (bar_pct p n < 1)%Q.
Proof.
  intros Hp. unfold bar_pct.
  destruct (Z.eqb_spec p 0); [reflexivity|].
  destruct (Z.leb_spec n p); [lia|].
  unfold Qlt; cbn. rewrite Z2Pos.id by lia. lia.
Qed.

Lemma nondecreasing_cons_if (c : bool) x l :
  Forall (Qle x) l -> nondecreasing l ->
  nondecreasing ((if c then [x] else []) ++ l).
Proof. destruct c; cbn; auto. Qed.

Lemma Forall_cons_if {A : Type} (P : A -> Prop) (c : bool) x l :
  P x -> Forall P l -> Forall P ((if c then [x] else []) ++ l).
Proof. destruct c; cbn; auto. Qed.

(** The global values of the loop of [process_dir] never decrease and
    stay below 1. *)
Lemma dir_loop_global W self path out_path total : forall files pos,
  0 <= pos -> pos + Z.of_nat (length files) <= total ->
  nondecreasing
    (global_values (dir_loop W self path out_path total pos files).1) /\
  Forall (fun q => (bar_pct pos total <= q)%Q /\ (q < 1)%Q)
    (global_values (dir_loop W self path out_path total pos files).1).
Proof.
  induction files as [|f rest IH]; intros pos Hpos Hlen.
  - cbn. auto.
  - rewrite dir_loop_cons. cbn zeta.
    rewrite !io_bind_events. cbn [emit fst snd app].
    change (global_values (mkdir ?d :: ?l)) with (global_values l).
    rewrite global_values_app, _process_file_global.
    cbn [length] in Hlen.
    set (pos' := if isatty W then pos + 1 else pos).
    assert (Hpos' : pos <= pos' /\ pos' + Z.of_nat (length rest) <= total)
      by (subst pos'; destruct (isatty W); lia).
    destruct (IH pos' ltac:(lia) ltac:(lia)) as [IHs IHb].
    assert (Hhere : (bar_pct pos total <= bar_pct pos total)%Q /\
                    (bar_pct pos total < 1)%Q)
      by (split; [apply Qle_refl | apply bar_pct_lt_1; lia]).
    destruct (_process_file _ _ _ _ _).2 as [[]|e].
    + assert (Hb : Forall (fun q => (bar_pct pos total <= q)%Q /\ (q < 1)%Q)
                     (global_values
                        (dir_loop W self path out_path total pos' rest).1)).
      { eapply Forall_impl; [exact IHb|]. intros q [Hq1 Hq2].
        split; [|exact Hq2].
        eapply Qle_trans; [|exact Hq1]. apply bar_pct_mono. lia. }
      split.
      * apply nondecreasing_cons_if; [|exact IHs].
        eapply Forall_impl; [exact Hb|]. intros q [Hq _]. exact Hq.
      * apply Forall_cons_if; assumption.
    + cbn. rewrite app_nil_r.
      destruct (global_progress_callback self); cbn; auto.
Qed.

Lemma video_loop_local_sorted W self total : forall fs pos,
  0 <= pos ->
  nondecreasing (local_values (video_loop W self total pos fs).1) /\
  Forall (Qle (bar_pct pos total))
         (local_values (video_loop W self total pos fs).1).
Proof.
  induction fs as [|frame rest IH]; intros pos Hpos.
  - cbn. auto.
  - rewrite video_loop_events.
    destruct (process W self frame) as [[img bs] [[]|e]]; [|cbn; auto].
    change (out_write img :: ?l) with ([out_write img] ++ l).
    rewrite local_values_app. cbn [local_values omap app].
    rewrite local_values_app.
    destruct (IH (pos + 1) ltac:(lia)) as [IHs IHb].
    destruct (local_progress_callback self); cbn.
    + split; [split; assumption|]. constructor.
      * apply bar_pct_mono; lia.
      * eapply Forall_impl; [exact IHb|]. intros q Hq.
        eapply Qle_trans; [|exact Hq]. apply bar_pct_mono; lia.
    + split; [assumption|].
      eapply Forall_impl; [exact IHb|]. intros q Hq.
      eapply Qle_trans; [|exact Hq]. apply bar_pct_mono; lia.
Qed.

(** A video that is processed to its end reports the bar after each of
    its frames. *)
Lemma video_loop_local_values W self total : forall fs pos,
  (video_loop W self total pos fs).2 = Ok tt ->
  local_progress_callback self = true ->
  local_values (video_loop W self total pos fs).1 =
  (fun k => bar_pct k total) <$> seqZ (pos + 1) (Z.of_nat (length fs)).
Proof.
  induction fs as [|frame rest IH]; intros pos Hok Hcb; [reflexivity|].
  rewrite video_loop_result in Hok. rewrite video_loop_events.
  destruct (process W self frame) as [[img bs] [[]|e]]; cbn [snd] in Hok;
    [|discriminate].
  rewrite Hcb.
  change (local_values
            (out_write img :: [local_progress (bar_pct (pos + 1) total)] ++
             (video_loop W self total (pos + 1) rest).1))
    with (bar_pct (pos + 1) total ::
            local_values (video_loop W self total (pos + 1) rest).1).
  rewrite (IH (pos + 1) Hok Hcb).
  rewrite length_cons, Nat2Z.inj_succ.
  rewrite (seqZ_cons (pos + 1) (Z.succ _)) by lia.
  rewrite fmap_cons, Z.pred_succ. reflexivity.
Qed.

(** C8, as stated, fails: a single image that is processed with
    success reports no local progress at all, and the only global value
    of the run is 0; neither sequence reaches 1.0. *)
Lemma image_run_reports_no_completion :
  exists evs,
    process_file small_world small_self photo = (evs, Ok tt) /\
    local_values evs = [] /\
    global_values evs = [0%Q].
Proof. eexists. split; [vm_compute; reflexivity|]. split; reflexivity. Qed.

(** C8, amended: the global progress values a directory run emits never
    decrease and all stay below 1.0; a single-file run emits the one
    global value 0; the local progress values emitted while one video is
    processed never decrease, and when the video is processed to its end
    they are the bar's fraction after each frame - min(k / reported
    frame count, 1) after the k-th frame - so the last one is 1.0 when
    at least as many frames were read as the capture reported; an image
    file emits no local progress value. *)
Theorem progress_values W self :
  (forall path,
     nondecreasing (global_values (process_dir W self path).1) /\
     Forall (fun q => (q < 1)%Q) (global_values (process_dir W self path).1)) /\
  (forall filename,
     global_values (process_file W self filename).1 =
     if global_progress_callback self then [0%Q] else []) /\
  (forall in_path out_path,
     nondecreasing
       (local_values (process_video_file W self in_path out_path).1)) /\
  (forall in_path out_path,
     (process_video_file W self in_path out_path).2 = Ok tt ->
     local_progress_callback self = true ->
     isOpened (VideoCapture W in_path) = true ->
     local_values (process_video_file W self in_path out_path).1 =
     ((fun k => bar_pct k (CAP_PROP_FRAME_COUNT (VideoCapture W in_path))) <$>
        seqZ 1 (Z.of_nat (length (frames (VideoCapture W in_path)))))) /\
  (forall in_path out_path,
     local_values (process_image_file W self in_path out_path).1 = []).
Proof.
  split; [|split; [|split; [|split]]].
  - intros path. unfold process_dir. cbn zeta.
    rewrite io_bind_events.
    set (files := files_to_process W path).
    destruct (dir_loop_global W self path
                (parent path ++ [(stem path ++ "_anonymized")%string])
                (Z.of_nat (length files)) files 0 ltac:(lia) ltac:(lia))
      as [Hs Hb].
    assert (Hnil : forall r : res unit,
              match r with
              | Ok a =>
                  (mret (parent path ++ [(stem path ++ "_anonymized")%string])
                     : IO _).1
              | Raise _ => []
              end = []) by (intros [|]; reflexivity).
    rewrite Hnil, app_nil_r. split; [exact Hs|].
    eapply Forall_impl; [exact Hb|]. intros q [_ Hq]. exact Hq.
  - intros filename. unfold process_file. apply _process_file_global.
  - intros in_path out_path. rewrite process_video_file_eq.
    cbn zeta. cbn [fst].
    change (VideoWriter ?a ?b ?c ?d :: ?l) with ([VideoWriter a b c d] ++ l).
    rewrite !local_values_app.
    destruct (isOpened (VideoCapture W in_path)); [|cbn; auto].
    destruct (video_loop_local_sorted W self
                (CAP_PROP_FRAME_COUNT (VideoCapture W in_path))
                (frames (VideoCapture W in_path)) 0 ltac:(lia)) as [Hs _].
    assert (Hnil : forall r : res unit,
              local_values match r with
                           | Ok _ => [capture_release; out_release]
                           | Raise _ => []
                           end = [])
      by (intros [|]; reflexivity).
    rewrite Hnil, app_nil_r. exact Hs.
  - intros in_path out_path Hok Hcb Hopen.
    rewrite process_video_file_eq in Hok |- *.
    cbn zeta in Hok |- *. cbn [fst snd] in Hok |- *.
    rewrite Hopen in Hok |- *. rewrite Hok.
    change (VideoWriter ?a ?b ?c ?d :: ?l) with ([VideoWriter a b c d] ++ l).
    rewrite !local_values_app. cbn [local_values omap app].
    rewrite app_nil_r.
    apply (video_loop_local_values W self _ _ 0 Hok Hcb).
  - intros in_path out_path. unfold process_image_file.
    destruct (imread W in_path) as [img|]; [|reflexivity].
    destruct (process W self img) as [[img' bs] [[]|e]]; [|reflexivity].
    cbn. destruct (cv2_imwrite W out_path img'); reflexivity.
Qed.

Lemma progress_values_witness :
  ((process_video_file video_world small_self clip clip_out).2 = Ok tt) /\
  (local_values (process_video_file video_world small_self clip clip_out).1 =
   ((fun k => bar_pct k 2) <$> seqZ 1 2)) /\
  ((fun k => bar_pct k 2) <$> seqZ 1 2) = [(1 # 2)%Q; 1%Q].
Proof.
  split; [reflexivity|]. split; [|reflexivity].
  apply (proj1 (proj2 (proj2 (proj2 (progress_values video_world small_self))))
           clip clip_out); reflexivity.
Defined.

(** ** Videos that cannot be read *)

(** C10, as stated, fails: for a video that does not open and reports
    zero frames the writer of the output is created and the call
    returns; nothing is raised. *)
Lemma unopened_video_does_not_fail :
  isOpened (VideoCapture small_world clip) = false /\
  CAP_PROP_FRAME_COUNT (VideoCapture small_world clip) = 0 /\
  exists evs,
    process_video_file small_world small_self clip clip_out = (evs, Ok tt) /\
    VideoWriter clip_out 0%float 0 0 ∈ evs.
Proof.
  split; [reflexivity|]. split; [reflexivity|].
  eexists. split; [reflexivity|]. left.
Qed.

(** A capture that reports no frame is read to its end all the same:
    the bar is full after every frame. *)
Lemma video_loop_zero_count W self : forall fs pos,
  0 <= pos ->
  Forall (fun f => (process W self f).2 = Ok tt) fs ->
  (video_loop W self 0 pos fs).2 = Ok tt /\
  written_frames (video_loop W self 0 pos fs).1 =
    map (fun f => (process W self f).1.1) fs /\
  local_values (video_loop W self 0 pos fs).1 =
    (if local_progress_callback self then map (fun _ => 1%Q) fs else []).
Proof.
  induction fs as [|frame rest IH]; intros pos Hpos Hall.
  - cbn. destruct (local_progress_callback self); auto.
  - apply Forall_cons in Hall as [Hf Hrest].
    destruct (IH (pos + 1) ltac:(lia) Hrest) as (IHr & IHw & IHl).
    rewrite video_loop_events, video_loop_result. cbn [map].
    assert (Hbar : bar_pct (pos + 1) 0 = 1%Q).
    { unfold bar_pct. destruct (Z.eqb_spec (pos + 1) 0); [lia|].
      destruct (Z.leb_spec 0 (pos + 1)); [reflexivity | lia]. }
    rewrite Hbar.
    destruct (process W self frame) as [[img bs] r]. cbn [fst snd] in *.
    subst r. split; [exact IHr|].
    destruct (local_progress_callback self); cbn [app].
    + change (written_frames (out_write img :: local_progress 1 :: ?l))
        with (img :: written_frames l).
      change (local_values (out_write img :: local_progress 1 :: ?l))
        with (1%Q :: local_values l).
      rewrite IHw, IHl. split; reflexivity.
    + change (written_frames (out_write img :: ?l))
        with (img :: written_frames l).
      change (local_values (out_write img :: ?l)) with (local_values l).
      rewrite IHw, IHl. split; reflexivity.
Qed.

(** C10, amended: for a video that fails to open or that reports zero
    frames [process_video_file] raises nothing on that account, and it
    creates the writer of the output first, before it looks at the
    capture - as it does for every input.  A video that fails to open
    then gets no frame written and no progress reported; capture and
    writer are released and the call returns.  A video that opens and
    reports zero frames is read like any other: every frame the capture
    delivers is processed and written, the local progress after each is
    1.0, capture and writer are released and the call returns, provided
    [process] raises on no frame. *)
Theorem process_video_file_unreadable W self in_path out_path :
  (exists evs,
     (process_video_file W self in_path out_path).1 =
     VideoWriter out_path (CAP_PROP_FPS (VideoCapture W in_path))
       (CAP_PROP_FRAME_WIDTH (VideoCapture W in_path))
       (CAP_PROP_FRAME_HEIGHT (VideoCapture W in_path)) :: evs) /\
  (isOpened (VideoCapture W in_path) = false ->
   process_video_file W self in_path out_path =
   ([VideoWriter out_path (CAP_PROP_FPS (VideoCapture W in_path))
       (CAP_PROP_FRAME_WIDTH (VideoCapture W in_path))
       (CAP_PROP_FRAME_HEIGHT (VideoCapture W in_path));
     capture_release; out_release], Ok tt)) /\
  (CAP_PROP_FRAME_COUNT (VideoCapture W in_path) = 0 ->
   isOpened (VideoCapture W in_path) = true ->
   Forall (fun f => (process W self f).2 = Ok tt)
          (frames (VideoCapture W in_path)) ->
   (process_video_file W self in_path out_path).2 = Ok tt /\
   written_frames (process_video_file W self in_path out_path).1 =
     map (fun f => (process W self f).1.1) (frames (VideoCapture W in_path)) /\
   local_values (process_video_file W self in_path out_path).1 =
     (if local_progress_callback self
      then map (fun _ => 1%Q) (frames (VideoCapture W in_path))
      else []) /\
   capture_release ∈ (process_video_file W self in_path out_path).1 /\
   out_release ∈ (process_video_file W self in_path out_path).1).
Proof.
  rewrite process_video_file_eq. cbn zeta.
  split; [cbn [fst]; eauto|]. split.
  - intros Hc. rewrite Hc. reflexivity.
  - intros Hn Ho Hall. rewrite Hn, Ho. cbn [fst snd].
    destruct (video_loop_zero_count W self (frames (VideoCapture W in_path)) 0
                ltac:(lia) Hall) as (Hr & Hw & Hl).
    rewrite Hr.
    change (written_frames (VideoWriter ?p ?a ?b ?c :: ?l))
      with (written_frames l).
    change (local_values (VideoWriter ?p ?a ?b ?c :: ?l))
      with (local_values l).
    unfold written_frames in *. rewrite omap_app, Hw.
    rewrite local_values_app, Hl. cbn [omap local_values].
    rewrite !app_nil_r.
    repeat split.
    + right. apply elem_of_app. right. left.
    + right. apply elem_of_app. right. right. left.
Qed.

Lemma process_video_file_unreadable_witness :
  process_video_file small_world small_self clip clip_out =
    ([VideoWriter clip_out 0%float 0 0; capture_release; out_release], Ok tt) /\
  CAP_PROP_FRAME_COUNT (VideoCapture uncounted_world clip) = 0 /\
  (process_video_file uncounted_world small_self clip clip_out).2 = Ok tt /\
  written_frames (process_video_file uncounted_world small_self clip clip_out).1
    = [small_frame] /\
  local_values (process_video_file uncounted_world small_self clip clip_out).1
    = [1%Q].
Proof.
  split.
  - apply (proj1 (proj2 (process_video_file_unreadable small_world small_self
                           clip clip_out))).
    reflexivity.
  - split; [reflexivity|].
    destruct (proj2 (proj2 (process_video_file_unreadable uncounted_world
                              small_self clip clip_out)))
      as (Hr & Hw & Hl & _); [reflexivity | reflexivity | |].
    + repeat constructor.
    + rewrite Hw, Hl. split; [exact Hr|]. split; reflexivity.
Defined.

(** * Further facts *)

(** ** [pixelate] *)

Lemma quot_lt_1 a b : 0 < b -> a < b -> Z.quot a b < 1.
Proof.
  intros Hb Hab. destruct (Z.le_gt_cases 0 a) as [Ha|Ha].
  - rewrite Z.quot_small by lia. lia.
  - pose proof (Z.quot_opp_l a b ltac:(lia)) as Hq.
    pose proof (Z.quot_pos (- a) b ltac:(lia) Hb). lia.
Qed.

Lemma quot_ge_1 a b : 0 < b -> b <= a -> 1 <= Z.quot a b.
Proof.
  intros Hb Hab. rewrite Z.quot_div_nonneg by lia.
  apply Z.div_le_lower_bound; lia.
Qed.

Lemma assign_slice_Ok img b face out :
  assign_slice img b face = Ok out ->
  nrows out = nrows img /\ ncols out = ncols img /\
  forall r c, in_box img b r c = false -> pixel_at out r c = pixel_at img r c.
Proof.
  destruct b as [[[x1 y1] x2] y2]. unfold assign_slice, shape.
  destruct (_ && _); [|discriminate]. intros [= <-]. cbn.
  split; [reflexivity|]. split; [reflexivity|].
  intros r c Hout. unfold pixel_at. cbn [data].
  rewrite list_lookup_imap.
  destruct (data img !! r) as [row|]; cbn; [|reflexivity].
  rewrite list_lookup_imap. destruct (row !! c) as [p|]; cbn; [|reflexivity].
  unfold in_box in Hout. rewrite Hout. reflexivity.
Qed.

(** X1: [pixelate] leaves the frame as it was when the box is narrower or
    lower than the pixelation factor, whatever OpenCV would do. *)
Theorem pixelate_too_small W self img x1 y1 x2 y2 :
  0 < pixelation_factor self ->
  x2 - x1 < pixelation_factor self \/ y2 - y1 < pixelation_factor self ->
  pixelate W self img x1 y1 x2 y2 = Ok img.
Proof.
  intros Hpf Hsmall. unfold pixelate, int_div.
  destruct (Z.eqb_spec (pixelation_factor self) 0); [lia|]. cbn.
  destruct Hsmall as [H|H].
  - pose proof (quot_lt_1 _ _ Hpf H) as Hq.
    apply Z.ltb_lt in Hq. rewrite Hq. reflexivity.
  - pose proof (quot_lt_1 _ _ Hpf H) as Hq.
    apply Z.ltb_lt in Hq. rewrite Hq, orb_true_r. reflexivity.
Qed.

Lemma pixelate_too_small_witness :
  pixelate small_world default_self ramp_frame 0 0 4 4 = Ok ramp_frame.
Proof.
  apply pixelate_too_small; [reflexivity | left; reflexivity].
Defined.

(** X2: whenever [pixelate] returns, the frame keeps its shape and every
    pixel outside [img[y1:y2, x1:x2]] keeps its value. *)
Theorem pixelate_outside_box W self img x1 y1 x2 y2 out :
  pixelate W self img x1 y1 x2 y2 = Ok out ->
  nrows out = nrows img /\ ncols out = ncols img /\
  forall r c, in_box img (x1, y1, x2, y2) r c = false ->
              pixel_at out r c = pixel_at img r c.
Proof.
  unfold pixelate. intros H.
  bind_ok H pw Hpw. bind_ok H ph Hph.
  destruct ((pw <? 1) || (ph <? 1)).
  - injection H as <-. auto.
  - bind_ok H f1 Hf1. bind_ok H f2 Hf2.
    exact (assign_slice_Ok _ _ _ _ H).
Qed.

Lemma pixelate_outside_box_witness :
  exists out,
    pixelate small_world small_self ramp_frame 0 0 2 2 = Ok out /\
    out <> ramp_frame /\
    pixel_at out 0 0 = Some (gray 10) /\
    pixel_at out 0 2 = pixel_at ramp_frame 0 2 /\
    pixel_at out 3 3 = pixel_at ramp_frame 3 3.
Proof.
  eexists. split; [reflexivity|].
  split; [vm_compute; discriminate|]. split; [reflexivity|].
  destruct (pixelate_outside_box small_world small_self ramp_frame 0 0 2 2 _
              eq_refl) as (_ & _ & Hout).
  split; apply Hout; reflexivity.
Defined.

(** X3: [pixelate] does not clip: on a box at least two pixels wide that
    passes the guard and overruns the right edge of the frame it never
    returns - the resized face is wider than the slice it is assigned
    to. *)
Theorem pixelate_overrun_fails W self img x1 y1 x2 y2 :
  0 < pixelation_factor self ->
  pixelation_factor self <= x2 - x1 ->
  pixelation_factor self <= y2 - y1 ->
  0 <= x1 -> Z.of_nat (ncols img) < x2 -> 2 <= x2 - x1 ->
  exists e, pixelate W self img x1 y1 x2 y2 = Raise e.
Proof.
  intros Hpf Hw Hh Hx1 Hx2 Hwide. unfold pixelate, int_div.
  destruct (Z.eqb_spec (pixelation_factor self) 0); [lia|]. cbn.
  pose proof (quot_ge_1 _ _ Hpf Hw) as Hqw.
  pose proof (quot_ge_1 _ _ Hpf Hh) as Hqh.
  apply Z.ltb_ge in Hqw, Hqh. rewrite Hqw, Hqh. cbn.
  destruct (resize W _ _ _ INTER_LINEAR) as [f1|e1]; cbn; [|eauto].
  unfold resize at 1.
  destruct (cv2_resize W f1 _ _ INTER_AREA) as [d|e2]; cbn; [|eauto].
  unfold shape. cbn [nrows ncols].
  assert (Hfw : (Z.of_nat (Z.to_nat (x2 - x1)) =?
                 slice_len (Z.of_nat (ncols img)) x1 x2) = false).
  { apply Z.eqb_neq. unfold slice_len, slice_bound.
    destruct (Z.ltb_spec x1 0), (Z.ltb_spec x2 0); lia. }
  assert (Hf1 : (Z.of_nat (Z.to_nat (x2 - x1)) =? 1) = false)
    by (apply Z.eqb_neq; lia).
  rewrite Hfw, Hf1. cbn. rewrite andb_false_r. eauto.
Qed.

Lemma pixelate_overrun_fails_witness :
  pixelate small_world small_self ramp_frame 3 0 5 2 = Raise ValueError.
Proof.
  destruct (pixelate_overrun_fails small_world small_self ramp_frame 3 0 5 2)
    as [e He]; try (cbn; lia).
  rewrite He. vm_compute in He. congruence.
Defined.

(** ** [process] as a whole *)

(** What [process] leaves is its argument with the boxes it yielded
    pasted from one frame, and those boxes satisfy every property the
    boxes of [process_img] have on tiles and on the frame. *)
Lemma process_frame_boxes W self img (P : box -> Prop) :
  (forall im x1 x2 y1 y2,
     nrows im = nrows img -> ncols im = ncols img ->
     tile_in_frame (Z.of_nat (nrows img)) (Z.of_nat (ncols img))
                   (x1, x2, y1, y2) ->
     Forall P (map (translate (x1, x2, y1, y2))
                   (process_img W self (view im x1 x2 y1 y2)).1)) ->
  (forall im, nrows im = nrows img -> ncols im = ncols img ->
              Forall P (process_img W self im).1) ->
  Forall P (process W self img).1.2 /\
  exists pix,
    (process W self img).1.1 = paste_boxes pix img (process W self img).1.2.
Proof.
  intros Htile Hframe. unfold process.
  destruct (pixelate_frame W self img) as [pix|e]; cbn.
  - destruct (detection_spec W self pix (nrows img) (ncols img) P Htile Hframe
                img eq_refl eq_refl) as [Hall Hout].
    split; [exact Hall|]. exists pix. exact Hout.
  - split; [constructor|]. exists img. reflexivity.
Qed.

(** The frame [process] leaves is its argument with boxes pasted. *)
Lemma process_pasted W self img :
  exists pix,
    (process W self img).1.1 = paste_boxes pix img (process W self img).1.2.
Proof.
  destruct (process_frame_boxes W self img (fun _ => True)) as [_ Hpix].
  - intros. apply Forall_forall. auto.
  - intros. apply Forall_forall. auto.
  - exact Hpix.
Qed.

(** X4: [process] returns a frame of the shape of its argument, whether
    it returns or raises, and a buffer that agreed with its shape still
    does. *)
Theorem process_keeps_shape W self img :
  nrows (process W self img).1.1 = nrows img /\
  ncols (process W self img).1.1 = ncols img /\
  (wf_ndarray img -> wf_ndarray (process W self img).1.1).
Proof.
  destruct (process_pasted W self img) as [pix ->].
  destruct (paste_boxes_shape pix (process W self img).1.2 img) as [-> ->].
  split; [reflexivity|]. split; [reflexivity|]. apply paste_boxes_wf.
Qed.

(** X5: [process] changes no pixel outside the rectangles of the boxes
    it yielded (for a non-negative [face_min_size]), also when it
    raises part of the way. *)
Theorem process_changes_only_boxes W self img r c :
  0 <= face_min_size self ->
  (forall x1 y1 x2 y2, (x1, y1, x2, y2) ∈ (process W self img).1.2 ->
     ~ (x1 <= Z.of_nat c < x2 /\ y1 <= Z.of_nat r < y2)) ->
  pixel_at (process W self img).1.1 r c = pixel_at img r c.
Proof.
  intros Hmin Hout.
  destruct (process_frame_boxes W self img
              (detected_box self (nrows img) (ncols img)))
    as [Hall [pix ->]].
  - intros im a b c0 d Hh Hw Ht. rewrite <- Hh, <- Hw in *.
    apply tile_boxes_detected; assumption.
  - intros im Hh Hw. rewrite <- Hh, <- Hw. apply process_img_in_frame, Hmin.
  - rewrite pixel_at_paste_boxes.
    assert (Hc : covered img (process W self img).1.2 r c = false).
    { unfold covered. apply not_true_iff_false. rewrite existsb_exists.
      intros ([[[x1 y1] x2] y2] & Hb & Hbox). apply list_elem_of_In in Hb.
      rewrite Forall_forall in Hall. destruct (Hall _ Hb) as [Hin _].
      apply (in_box_geometry img) in Hbox; [|exact Hin].
      exact (Hout _ _ _ _ Hb Hbox). }
    rewrite Hc. destruct (pixel_at img r c); reflexivity.
Qed.

Lemma process_changes_only_boxes_witness :
  (process face_world default_self frame_100).1.2 =
    [(26, 26, 54, 54); (26, 26, 54, 54); (26, 26, 54, 54)] /\
  pixel_at (process face_world default_self frame_100).1.1 10 60 =
  pixel_at frame_100 10 60.
Proof.
  assert (Hb : (process face_world default_self frame_100).1.2 =
               [(26, 26, 54, 54); (26, 26, 54, 54); (26, 26, 54, 54)])
    by (vm_compute; reflexivity).
  split; [exact Hb|].
  apply process_changes_only_boxes; [cbn; lia|].
  rewrite Hb. intros x1 y1 x2 y2 Hin.
  repeat (apply elem_of_cons in Hin as [Heq|Hin];
          [injection Heq as -> -> -> ->; cbn; lia|]).
  apply elem_of_nil in Hin as [].
Defined.

Lemma process_img_no_faces W self img :
  (forall im, detector_process W im = Ok []) -> (process_img W self img).1 = [].
Proof.
  intros Hnone. unfold process_img.
  destruct (cvtColor W img) as [rgb|e]; cbn; [|reflexivity].
  rewrite Hnone. cbn. reflexivity.
Qed.

(** X6: when the detector finds no face in anything it is shown,
    [process] yields no box and leaves every pixel as it was. *)
Theorem process_without_faces W self img :
  (forall im, detector_process W im = Ok []) ->
  (process W self img).1 = (img, []).
Proof.
  intros Hnone.
  destruct (process_frame_boxes W self img (fun _ => False)) as [Hall [pix Hout]].
  - intros. rewrite process_img_no_faces by exact Hnone. constructor.
  - intros. rewrite process_img_no_faces by exact Hnone. constructor.
  - destruct (process W self img) as [[out boxes] res]. cbn in *.
    destruct boxes as [|b boxes].
    + cbn in Hout. subst out. reflexivity.
    + inversion Hall as [|? ? []].
Qed.

Lemma process_without_faces_witness :
  (process small_world small_self ramp_frame).1 = (ramp_frame, []) /\
  (process small_world small_self ramp_frame).2 = Ok tt.
Proof.
  split; [|reflexivity].
  apply process_without_faces. reflexivity.
Defined.

(** ** The tiles of [sliding_window] *)

Lemma ceil_div_half_Ok a s n :
  ceil_div_half a s = Ok n -> s <> 0 /\ n = - ((- (2 * a)) / s).
Proof.
  unfold ceil_div_half. destruct (Z.eqb_spec s 0); [discriminate|].
  intros [= <-]. auto.
Qed.

(** The tiles, one for each pair of a row index and a column index. *)
Lemma sliding_window_tiles_elem img s tiles :
  sliding_window_tiles img s = Ok tiles ->
  exists wx wy,
    ceil_div_half (Z.of_nat (nrows img)) s = Ok wx /\
    ceil_div_half (Z.of_nat (ncols img)) s = Ok wy /\
    wx <> 0 /\ wy <> 0 /\
    forall t, t ∈ tiles <->
      exists i j, 0 <= i < wx /\ 0 <= j < wy /\
        t = (i * Z.quot (Z.of_nat (nrows img)) wx,
             (i + 1) * Z.quot (Z.of_nat (nrows img)) wx,
             j * Z.quot (Z.of_nat (ncols img)) wy,
             (j + 1) * Z.quot (Z.of_nat (ncols img)) wy).
Proof.
  unfold sliding_window_tiles, shape. intros H.
  bind_ok H wx Hwx. bind_ok H wy Hwy.
  bind_ok H sx Hsx. bind_ok H sy Hsy.
  apply int_div_Ok in Hsx as [Hx0 ->], Hsy as [Hy0 ->].
  injection H as <-. exists wx, wy. repeat (split; [assumption|]).
  intros t. rewrite list_elem_of_In, in_flat_map. split.
  - intros (i & Hi & Hin).
    apply list_elem_of_In, list_elem_of_fmap in Hin as (j & -> & Hj).
    apply list_elem_of_In, elem_of_range in Hi. apply elem_of_range in Hj.
    exists i, j. auto.
  - intros (i & j & Hi & Hj & ->). exists i. split.
    + apply list_elem_of_In, elem_of_range, Hi.
    + apply list_elem_of_In, list_elem_of_fmap. exists j.
      split; [reflexivity|]. apply elem_of_range, Hj.
Qed.

(** X7: a window size that is not positive never produces a tile: the
    generator raises [ZeroDivisionError] or ends at once; for window
    size 0 it raises. *)
Theorem sliding_window_tiles_nonpositive img s :
  s <= 0 ->
  (sliding_window_tiles img s = Ok [] \/
   sliding_window_tiles img s = Raise ZeroDivisionError) /\
  (s = 0 -> sliding_window_tiles img s = Raise ZeroDivisionError).
Proof.
  intros Hs. split.
  - unfold sliding_window_tiles, shape, ceil_div_half, int_div.
    destruct (Z.eqb_spec s 0); [right; reflexivity|]. cbn.
    set (wx := - (- (2 * Z.of_nat (nrows img)) / s)).
    set (wy := - (- (2 * Z.of_nat (ncols img)) / s)).
    destruct (Z.eqb_spec wx 0); [right; reflexivity|].
    destruct (Z.eqb_spec wy 0); [right; reflexivity|]. cbn.
    left. assert (Hwx : wx <= 0).
    { subst wx.
      enough (0 <= - (2 * Z.of_nat (nrows img)) / s) by lia.
      rewrite <- Z.div_opp_opp by lia. apply Z.div_pos; lia. }
    unfold range. rewrite (Z2Nat.nonpos wx) by exact Hwx. reflexivity.
  - intros ->. reflexivity.
Qed.

Lemma sliding_window_tiles_nonpositive_witness :
  sliding_window_tiles ramp_frame (-3) = Ok [] /\
  sliding_window_tiles ramp_frame (-9) = Raise ZeroDivisionError /\
  sliding_window_tiles ramp_frame 0 = Raise ZeroDivisionError.
Proof.
  split; [reflexivity|]. split; [reflexivity|].
  apply (sliding_window_tiles_nonpositive ramp_frame 0); lia.
Defined.

(** X8: no two tiles of one window size share a pixel: the tiles do not
    overlap. *)
Theorem sliding_window_tiles_disjoint img s tiles t t' r c :
  sliding_window_tiles img s = Ok tiles ->
  t ∈ tiles -> t' ∈ tiles -> in_tile t r c -> in_tile t' r c -> t = t'.
Proof.
  intros H Ht Ht' Hin Hin'.
  destruct (sliding_window_tiles_elem img s tiles H)
    as (wx & wy & _ & _ & _ & _ & Helem).
  apply Helem in Ht as (i & j & Hi & Hj & ->).
  apply Helem in Ht' as (i' & j' & Hi' & Hj' & ->).
  unfold in_tile in Hin, Hin'.
  assert (i = i') by nia. assert (j = j') by nia. subst. reflexivity.
Qed.

Lemma sliding_window_tiles_disjoint_witness :
  exists tiles,
    sliding_window_tiles ramp_frame 4 = Ok tiles /\
    (0, 2, 0, 2) ∈ tiles /\ (0, 2, 2, 4) ∈ tiles /\ (2, 4, 0, 2) ∈ tiles /\
    forall t, t ∈ tiles -> in_tile t 1 1 -> t = (0, 2, 0, 2).
Proof.
  eexists. split; [reflexivity|].
  assert (H0 : (0, 2, 0, 2) ∈ [(0, 2, 0, 2); (0, 2, 2, 4); (2, 4, 0, 2);
                               (2, 4, 2, 4)]) by (left).
  split; [exact H0|]. split; [right; left|]. split; [right; right; left|].
  intros t Ht Hin.
  apply (sliding_window_tiles_disjoint ramp_frame 4 _ t (0, 2, 0, 2) 1 1
           eq_refl Ht H0 Hin).
  cbn. lia.
Defined.

(** For a frame with at least one pixel and a positive window size the
    tiles exist, and their counts and steps are those of the axes. *)
Lemma sliding_window_tiles_steps img s :
  1 <= Z.of_nat (nrows img) -> 1 <= Z.of_nat (ncols img) -> 1 <= s ->
  exists tiles wx wy sx sy,
    sliding_window_tiles img s = Ok tiles /\
    wx = (2 * Z.of_nat (nrows img) + s - 1) / s /\
    wy = (2 * Z.of_nat (ncols img) + s - 1) / s /\
    sx = Z.of_nat (nrows img) / wx /\ sy = Z.of_nat (ncols img) / wy /\
    1 <= wx /\ 1 <= wy /\ 0 <= sx /\ 0 <= sy /\
    (forall t, t ∈ tiles <->
       exists i j, 0 <= i < wx /\ 0 <= j < wy /\
         t = (i * sx, (i + 1) * sx, j * sy, (j + 1) * sy)).
Proof.
  intros Hh Hw Hs.
  destruct (axis_tiles_closed_form _ s Hh Hs)
    as (wx & sx & Hwx & Hsx & Hax & Hwx1 & Hsx0 & _).
  destruct (axis_tiles_closed_form _ s Hw Hs)
    as (wy & sy & Hwy & Hsy & Hay & Hwy1 & Hsy0 & _).
  pose proof (sliding_window_tiles_axes img s) as Heq.
  rewrite Hax, Hay in Heq. cbn in Heq.
  eexists _, wx, wy, sx, sy. split; [exact Heq|].
  repeat (split; [assumption|]).
  intros t. rewrite list_elem_of_In, in_flat_map. split.
  - intros (x & Hx & Hin).
    apply list_elem_of_In, list_elem_of_fmap in Hx as (i & -> & Hi).
    apply list_elem_of_In, list_elem_of_fmap in Hin as (y & -> & Hy).
    apply list_elem_of_fmap in Hy as (j & -> & Hj).
    apply elem_of_range in Hi, Hj. exists i, j. auto.
  - intros (i & j & Hi & Hj & ->).
    exists (i * sx, (i + 1) * sx). split.
    + apply list_elem_of_In, list_elem_of_fmap. exists i.
      split; [reflexivity|]. apply elem_of_range, Hi.
    + apply list_elem_of_In, list_elem_of_fmap.
      exists (j * sy, (j + 1) * sy). split; [reflexivity|].
      apply list_elem_of_fmap. exists j.
      split; [reflexivity|]. apply elem_of_range, Hj.
Qed.

(** X9: on a frame with at least one pixel, window size 1 produces
    tiles, and every one of them is the empty window at the origin; for
    a window size of 2 or more every tile holds at least one pixel. *)
Theorem sliding_window_tiles_extent img s :
  1 <= Z.of_nat (nrows img) -> 1 <= Z.of_nat (ncols img) -> 1 <= s ->
  exists tiles,
    sliding_window_tiles img s = Ok tiles /\ tiles <> [] /\
    (s = 1 -> Forall (fun t => t = (0, 0, 0, 0)) tiles) /\
    (2 <= s -> Forall (fun t : tile =>
                         let '(x1, x2, y1, y2) := t in x1 < x2 /\ y1 < y2)
                      tiles).
Proof.
  intros Hh Hw Hs.
  destruct (sliding_window_tiles_steps img s Hh Hw Hs)
    as (tiles & wx & wy & sx & sy & Ht & Hwx & Hwy & Hsx & Hsy &
        Hwx1 & Hwy1 & Hsx0 & Hsy0 & Helem).
  exists tiles. split; [exact Ht|]. split.
  { intros ->.
    assert (Hin : (0 * sx, (0 + 1) * sx, 0 * sy, (0 + 1) * sy) ∈ []).
    { apply Helem. exists 0, 0. repeat split; lia. }
    apply elem_of_nil in Hin as []. }
  split.
  - intros ->. apply Forall_forall. intros t Hin.
    apply Helem in Hin as (i & j & Hi & Hj & ->).
    assert (sx = 0).
    { subst sx wx. apply Z.div_small. split; [lia|].
      rewrite Z.div_1_r. lia. }
    assert (sy = 0).
    { subst sy wy. apply Z.div_small. split; [lia|].
      rewrite Z.div_1_r. lia. }
    subst sx sy. rewrite H, H0. f_equal; [f_equal; [f_equal|]|]; lia.
  - intros Hs2. apply Forall_forall. intros t Hin.
    apply Helem in Hin as (i & j & Hi & Hj & ->).
    assert (1 <= sx).
    { subst sx. apply Z.div_le_lower_bound; [lia|].
      subst wx. rewrite Z.mul_1_r.
      apply Z.lt_succ_r, Z.div_lt_upper_bound; nia. }
    assert (1 <= sy).
    { subst sy. apply Z.div_le_lower_bound; [lia|].
      subst wy. rewrite Z.mul_1_r.
      apply Z.lt_succ_r, Z.div_lt_upper_bound; nia. }
    nia.
Qed.

Lemma sliding_window_tiles_extent_witness :
  exists tiles,
    sliding_window_tiles small_frame 1 = Ok tiles /\ tiles <> [] /\
    Forall (fun t => t = (0, 0, 0, 0)) tiles.
Proof.
  destruct (sliding_window_tiles_extent small_frame 1)
    as (tiles & Ht & Hne & H1 & _); try (cbn; lia).
  exists tiles. split; [exact Ht|]. split; [exact Hne|]. apply H1. reflexivity.
Defined.

(** X10: on a frame of [h] rows and [w] columns the tiles of window size
    [s] cover exactly the rows below [h - h mod wx] and the columns
    below [w - w mod wy], where [wx] and [wy] are the tile counts
    [ceil(2h/s)] and [ceil(2w/s)]; so they cover the whole frame exactly
    when the counts divide the dimensions. *)
Theorem sliding_window_tiles_cover img s :
  1 <= Z.of_nat (nrows img) -> 1 <= Z.of_nat (ncols img) -> 1 <= s ->
  exists tiles wx wy,
    sliding_window_tiles img s = Ok tiles /\
    wx = (2 * Z.of_nat (nrows img) + s - 1) / s /\
    wy = (2 * Z.of_nat (ncols img) + s - 1) / s /\
    (forall r c,
       (exists t, t ∈ tiles /\ in_tile t r c) <->
       (0 <= r < Z.of_nat (nrows img) - Z.of_nat (nrows img) mod wx /\
        0 <= c < Z.of_nat (ncols img) - Z.of_nat (ncols img) mod wy)) /\
    ((forall r c, 0 <= r < Z.of_nat (nrows img) ->
                  0 <= c < Z.of_nat (ncols img) ->
                  exists t, t ∈ tiles /\ in_tile t r c) <->
     (Z.of_nat (nrows img) mod wx = 0 /\ Z.of_nat (ncols img) mod wy = 0)).
Proof.
  intros Hh Hw Hs.
  destruct (sliding_window_tiles_steps img s Hh Hw Hs)
    as (tiles & wx & wy & sx & sy & Ht & Hwx & Hwy & Hsx & Hsy &
        Hwx1 & Hwy1 & Hsx0 & Hsy0 & Helem).
  exists tiles, wx, wy. split; [exact Ht|].
  split; [exact Hwx|]. split; [exact Hwy|].
  set (h := Z.of_nat (nrows img)) in *. set (w := Z.of_nat (ncols img)) in *.
  pose proof (Z.div_mod h wx ltac:(lia)) as Hdh.
  pose proof (Z.div_mod w wy ltac:(lia)) as Hdw.
  pose proof (Z.mod_pos_bound h wx ltac:(lia)) as Hmh.
  pose proof (Z.mod_pos_bound w wy ltac:(lia)) as Hmw.
  rewrite <- Hsx in Hdh. rewrite <- Hsy in Hdw.
  assert (Hcover : forall r c,
    (exists t, t ∈ tiles /\ in_tile t r c) <->
    (0 <= r < h - h mod wx /\ 0 <= c < w - w mod wy)).
  { intros r c. split.
    - intros (t & Hin & Htile).
      apply Helem in Hin as (i & j & Hi & Hj & ->).
      unfold in_tile in Htile. nia.
    - intros [Hr Hc].
      assert (0 < sx) by nia. assert (0 < sy) by nia.
      pose proof (Z.div_mod r sx ltac:(lia)).
      pose proof (Z.mod_pos_bound r sx ltac:(lia)).
      pose proof (Z.div_mod c sy ltac:(lia)).
      pose proof (Z.mod_pos_bound c sy ltac:(lia)).
      exists (r / sx * sx, (r / sx + 1) * sx, c / sy * sy, (c / sy + 1) * sy).
      split.
      + apply Helem. exists (r / sx), (c / sy).
        split; [split; [apply Z.div_pos; lia|
                        apply Z.div_lt_upper_bound; nia]|].
        split; [split; [apply Z.div_pos; lia|
                        apply Z.div_lt_upper_bound; nia]|].
        reflexivity.
      + unfold in_tile. nia. }
  split; [exact Hcover|]. split.
  - intros Hall.
    assert (Hr : 0 <= h - 1 < h) by lia. assert (Hc : 0 <= w - 1 < w) by lia.
    destruct (proj1 (Hcover (h - 1) (w - 1)) (Hall _ _ Hr Hc)). lia.
  - intros [H0h H0w] r c Hr Hc. apply Hcover. lia.
Qed.

Lemma sliding_window_tiles_cover_witness :
  exists tiles wx wy,
    sliding_window_tiles frame_1000 700 = Ok tiles /\
    wx = (2 * 1000 + 700 - 1) / 700 /\
    wy = (2 * 1000 + 700 - 1) / 700 /\
    (forall r c,
       (exists t, t ∈ tiles /\ in_tile t r c) <->
       (0 <= r < 1000 - 1000 mod wx /\ 0 <= c < 1000 - 1000 mod wy)) /\
    ((forall r c, 0 <= r < 1000 -> 0 <= c < 1000 ->
                  exists t, t ∈ tiles /\ in_tile t r c) <->
     (1000 mod wx = 0 /\ 1000 mod wy = 0)).
Proof.
  apply (sliding_window_tiles_cover frame_1000 700); cbn; lia.
Defined.

(** ** Videos *)

Lemma video_loop_loop_events W self total : forall fs pos,
  Forall loop_event (video_loop W self total pos fs).1.
Proof.
  induction fs as [|frame rest IH]; intros pos; [constructor|].
  rewrite video_loop_events.
  destruct (process W self frame) as [[img bs] [[]|e]]; [|constructor].
  constructor; [exact I|]. apply Forall_app. split; [|apply IH].
  destruct (local_progress_callback self); repeat constructor.
Qed.

Lemma written_frames_app a b :
  written_frames (a ++ b) = written_frames a ++ written_frames b.
Proof. apply omap_app. Qed.

Lemma video_loop_written W self total : forall fs pos,
  written_frames (video_loop W self total pos fs).1 `prefix_of`
    map (fun f => (process W self f).1.1) fs /\
  ((video_loop W self total pos fs).2 = Ok tt ->
   written_frames (video_loop W self total pos fs).1 =
   map (fun f => (process W self f).1.1) fs).
Proof.
  induction fs as [|frame rest IH]; intros pos.
  - cbn. split; reflexivity.
  - rewrite video_loop_events, video_loop_result. cbn [map].
    destruct (IH (pos + 1)) as [IH1 IH2].
    destruct (process W self frame) as [[img bs] [[]|e]]; cbn [fst snd].
    + change (out_write img :: ?l) with ([out_write img] ++ l).
      rewrite !written_frames_app.
      assert (Hnil : written_frames
                       (if local_progress_callback self
                        then [local_progress (bar_pct (pos + 1) total)]
                        else []) = [])
        by (destruct (local_progress_callback self); reflexivity).
      rewrite Hnil. cbn [app map written_frames omap]. split.
      * apply prefix_cons, IH1.
      * intros H. f_equal. apply IH2, H.
    + cbn. split; [apply prefix_nil | discriminate].
Qed.

(** X11: a video is written frame by frame in the order it is read: the
    frames handed to the writer are the frames [process] leaves for a
    prefix of the input frames - for all of them when the call returns
    from an open capture - and each has the shape of the frame it was
    made from. *)
Theorem process_video_file_frames W self in_path out_path :
  written_frames (process_video_file W self in_path out_path).1 `prefix_of`
    map (fun f => (process W self f).1.1) (frames (VideoCapture W in_path)) /\
  ((process_video_file W self in_path out_path).2 = Ok tt ->
   isOpened (VideoCapture W in_path) = true ->
   written_frames (process_video_file W self in_path out_path).1 =
   map (fun f => (process W self f).1.1) (frames (VideoCapture W in_path))) /\
  Forall2 (fun f o => nrows o = nrows f /\ ncols o = ncols f)
    (frames (VideoCapture W in_path))
    (map (fun f => (process W self f).1.1) (frames (VideoCapture W in_path))).
Proof.
  rewrite process_video_file_eq. cbn zeta. cbn [fst snd].
  change (written_frames (VideoWriter ?a ?b ?c ?d :: ?l))
    with (written_frames l).
  rewrite written_frames_app.
  assert (Hnil : forall r : res unit,
            written_frames match r with
                           | Ok _ => [capture_release; out_release]
                           | Raise _ => []
                           end = []) by (intros [|]; reflexivity).
  rewrite Hnil, app_nil_r.
  split; [|split].
  - destruct (isOpened (VideoCapture W in_path)); [|apply prefix_nil].
    apply video_loop_written.
  - intros Hok Hopen. rewrite Hopen in Hok |- *.
    apply video_loop_written, Hok.
  - apply Forall2_fmap_r, Forall_Forall2_diag, Forall_forall.
    intros f _. cbn. destruct (process_pasted W self f) as [pix ->].
    destruct (paste_boxes_shape pix (process W self f).1.2 f) as [-> ->].
    auto.
Qed.

Lemma process_video_file_frames_witness :
  (process_video_file video_world small_self clip clip_out).2 = Ok tt /\
  isOpened (VideoCapture video_world clip) = true /\
  written_frames (process_video_file video_world small_self clip clip_out).1 =
  [small_frame; small_frame].
Proof.
  split; [reflexivity|]. split; [reflexivity|].
  rewrite (proj1 (proj2 (process_video_file_frames video_world small_self
                           clip clip_out))) by reflexivity.
  reflexivity.
Defined.

(** X12: the capture and the writer are released exactly when
    [process_video_file] returns; when a frame makes [process] raise,
    neither is released. *)
Theorem process_video_file_release W self in_path out_path :
  (capture_release ∈ (process_video_file W self in_path out_path).1 <->
   (process_video_file W self in_path out_path).2 = Ok tt) /\
  (out_release ∈ (process_video_file W self in_path out_path).1 <->
   (process_video_file W self in_path out_path).2 = Ok tt).
Proof.
  rewrite process_video_file_eq. cbn zeta. cbn [fst snd].
  set (loop := if isOpened _ then _ else _).
  assert (Hloop : Forall loop_event loop.1).
  { subst loop. destruct (isOpened _); [apply video_loop_loop_events|].
    constructor. }
  rewrite Forall_forall in Hloop.
  split; split.
  - intros Hin. apply elem_of_cons in Hin as [Heq|Hin]; [discriminate|].
    apply elem_of_app in Hin as [Hin|Hin]; [destruct (Hloop _ Hin)|].
    destruct loop.2 as [[]|e]; [reflexivity | apply elem_of_nil in Hin as []].
  - intros ->. right. apply elem_of_app. right. left.
  - intros Hin. apply elem_of_cons in Hin as [Heq|Hin]; [discriminate|].
    apply elem_of_app in Hin as [Hin|Hin]; [destruct (Hloop _ Hin)|].
    destruct loop.2 as [[]|e]; [reflexivity | apply elem_of_nil in Hin as []].
  - intros ->. right. apply elem_of_app. right. right. left.
Qed.

(** ** One file *)

Lemma written_paths_app a b :
  written_paths (a ++ b) = written_paths a ++ written_paths b.
Proof. apply omap_app. Qed.

Lemma saved_paths_app a b :
  saved_paths (a ++ b) = saved_paths a ++ saved_paths b.
Proof. apply omap_app. Qed.

Lemma made_dirs_app a b : made_dirs (a ++ b) = made_dirs a ++ made_dirs b.
Proof. apply omap_app. Qed.

Lemma saved_paths_media evs : Forall media_event evs -> saved_paths evs = [].
Proof.
  induction 1 as [|e evs He _ IH]; [reflexivity|].
  destruct e; cbn in *; try contradiction; exact IH.
Qed.

Lemma made_dirs_media evs : Forall media_event evs -> made_dirs evs = [].
Proof.
  induction 1 as [|e evs He _ IH]; [reflexivity|].
  destruct e; cbn in *; try contradiction; exact IH.
Qed.

Lemma written_paths_loop evs : Forall loop_event evs -> written_paths evs = [].
Proof.
  induction 1 as [|e evs He _ IH]; [reflexivity|].
  destruct e; cbn in *; try contradiction; exact IH.
Qed.

Lemma process_video_file_written W self in_path out_path :
  written_paths (process_video_file W self in_path out_path).1 = [out_path].
Proof.
  rewrite process_video_file_eq. cbn zeta. cbn [fst].
  change (written_paths (VideoWriter ?p ?b ?c ?d :: ?l))
    with (p :: written_paths l).
  rewrite written_paths_app. f_equal.
  set (loop := if isOpened _ then _ else _).
  assert (Hloop : Forall loop_event loop.1).
  { subst loop. destruct (isOpened _); [apply video_loop_loop_events|].
    constructor. }
  rewrite (written_paths_loop _ Hloop). destruct loop.2; reflexivity.
Qed.

Lemma process_image_file_written W self in_path out_path :
  written_paths (process_image_file W self in_path out_path).1 =
  (if reaches_imwrite W self in_path then [out_path] else []) /\
  ((process_image_file W self in_path out_path).2 = Ok tt ->
   reaches_imwrite W self in_path = true).
Proof.
  unfold process_image_file, reaches_imwrite.
  destruct (imread W in_path) as [img|]; [|split; [reflexivity|discriminate]].
  destruct (process W self img) as [[img' bs] [[]|e]]; cbn;
    [|split; [reflexivity|discriminate]].
  destruct (cv2_imwrite W out_path img') as [b|e]; split; reflexivity.
Qed.

(** What [_process_file] does, seen through each kind of event. *)
Lemma _process_file_shape W self filename out_filepath progress :
  let r := _process_file W self filename out_filepath progress in
  let dest := destination filename out_filepath in
  written_paths r.1 =
    match filetype_of filename with
    | video => [dest]
    | image => if reaches_imwrite W self filename then [dest] else []
    end /\
  (r.2 = Ok tt -> written_paths r.1 = [dest]) /\
  saved_paths r.1 = match r.2 with Ok _ => [dest] | Raise _ => [] end /\
  made_dirs r.1 = [] /\
  r.2 = match filetype_of filename with
        | video => (process_video_file W self filename dest).2
        | image => (process_image_file W self filename dest).2
        end.
Proof.
  unfold _process_file, destination, filetype_of. cbn zeta.
  destruct (str_in (suffix filename) video_extensions).
  - rewrite !io_bind_events, !io_bind_result, call_events, call_result.
    cbn [emit fst snd].
    rewrite !written_paths_app, !saved_paths_app, !made_dirs_app.
    change (written_paths (echo_processing ?t ?f :: ?l)) with (written_paths l).
    change (saved_paths (echo_processing ?t ?f :: ?l)) with (saved_paths l).
    change (made_dirs (echo_processing ?t ?f :: ?l)) with (made_dirs l).
    rewrite ?written_paths_app, ?saved_paths_app, ?made_dirs_app.
    rewrite process_video_file_written.
    pose proof (process_video_file_media W self filename
                  (with_suffix out_filepath ".mp4")) as Hm.
    rewrite (saved_paths_media _ Hm), (made_dirs_media _ Hm).
    destruct (global_progress_callback self);
      destruct (process_video_file _ _ _ _).2 as [[]|e]; cbn;
      repeat split; auto.
  - rewrite !io_bind_events, !io_bind_result, call_events, call_result.
    cbn [emit fst snd].
    rewrite !written_paths_app, !saved_paths_app, !made_dirs_app.
    change (written_paths (echo_processing ?t ?f :: ?l)) with (written_paths l).
    change (saved_paths (echo_processing ?t ?f :: ?l)) with (saved_paths l).
    change (made_dirs (echo_processing ?t ?f :: ?l)) with (made_dirs l).
    rewrite ?written_paths_app, ?saved_paths_app, ?made_dirs_app.
    destruct (process_image_file_written W self filename out_filepath)
      as [Hw Hok].
    rewrite Hw.
    pose proof (process_image_file_media W self filename out_filepath) as Hm.
    rewrite (saved_paths_media _ Hm), (made_dirs_media _ Hm).
    destruct (global_progress_callback self);
      destruct (process_image_file _ _ _ _).2 as [[]|e]; cbn;
      rewrite ?Hok by reflexivity; rewrite ?app_nil_r;
      repeat split; auto; discriminate.
Qed.

Lemma string_length_app (s t : string) :
  String.length (s ++ t) = (String.length s + String.length t)%nat.
Proof. induction s as [|a s IH]; cbn; [reflexivity|]. rewrite IH. reflexivity. Qed.

(** X13: [process_file] writes next to its input, under the stem extended
    by [_anonymized], with the suffix [.mp4] for a video and the input's
    suffix for an image; this is never the input path and it is the only
    path opened for writing: a video opens it whatever happens next, an
    image hands it to [cv2.imwrite] exactly when the image was read and
    [process] returned - also when [cv2.imwrite] itself then raises; the
    file is announced as saved exactly when the call returns. *)
Theorem process_file_output W self filename :
  parent (destination filename
            (with_stem filename (stem filename ++ "_anonymized")%string)) =
    parent filename /\
  stem (destination filename
          (with_stem filename (stem filename ++ "_anonymized")%string)) =
    (stem filename ++ "_anonymized")%string /\
  suffix (destination filename
            (with_stem filename (stem filename ++ "_anonymized")%string)) =
    match filetype_of filename with
    | video => ".mp4"%string
    | image => suffix filename
    end /\
  destination filename
    (with_stem filename (stem filename ++ "_anonymized")%string) <> filename /\
  written_paths (process_file W self filename).1 =
    match filetype_of filename with
    | video => [destination filename
                  (with_stem filename (stem filename ++ "_anonymized")%string)]
    | image =>
        if reaches_imwrite W self filename
        then [destination filename
                (with_stem filename (stem filename ++ "_anonymized")%string)]
        else []
    end /\
  ((process_file W self filename).2 = Ok tt ->
   written_paths (process_file W self filename).1 =
     [destination filename
        (with_stem filename (stem filename ++ "_anonymized")%string)]) /\
  saved_paths (process_file W self filename).1 =
    match (process_file W self filename).2 with
    | Ok _ => [destination filename
                 (with_stem filename (stem filename ++ "_anonymized")%string)]
    | Raise _ => []
    end.
Proof.
  assert (Hstem : stem (destination filename
            (with_stem filename (stem filename ++ "_anonymized")%string)) =
            (stem filename ++ "_anonymized")%string)
    by (unfold destination; destruct (filetype_of filename); reflexivity).
  split; [unfold destination; destruct (filetype_of filename); reflexivity|].
  split; [exact Hstem|].
  split; [unfold destination; destruct (filetype_of filename); reflexivity|].
  split.
  { intros Heq. rewrite Heq in Hstem.
    apply (f_equal String.length) in Hstem.
    rewrite string_length_app in Hstem. cbn in Hstem. lia. }
  unfold process_file.
  destruct (_process_file_shape W self filename
              (with_stem filename (stem filename ++ "_anonymized")%string) 0%Q)
    as (Hw & Hok & Hs & _ & _).
  repeat split; assumption.
Qed.

Lemma process_file_output_witness :
  filetype_of notes = image /\
  reaches_imwrite small_world small_self notes = true /\
  (process_file small_world small_self notes).2 = Raise cv2_error /\
  written_paths (process_file small_world small_self notes).1 =
    [ {| parent := ["in"]%string; stem := "notes_anonymized";
         suffix := ".txt" |} ] /\
  saved_paths (process_file small_world small_self notes).1 = [] /\
  (process_file small_world small_self photo).2 = Ok tt /\
  written_paths (process_file small_world small_self photo).1 =
    [ {| parent := ["in"]%string; stem := "a_anonymized";
         suffix := ".jpg" |} ].
Proof.
  destruct (process_file_output small_world small_self notes)
    as (_ & _ & _ & _ & Hw & _ & Hs).
  destruct (process_file_output small_world small_self photo)
    as (_ & _ & _ & _ & _ & Hok & _).
  rewrite Hw, Hs, (Hok eq_refl).
  repeat split; reflexivity.
Defined.

(** ** A directory *)




Lemma str_in_elem s l : str_in s l = true -> s ∈ l.
Proof.
  unfold str_in. induction l as [|x l IH]; cbn; [discriminate|].
  intros H. apply orb_true_iff in H as [H|H].
  - apply String.eqb_eq in H. subst. left.
  - right. auto.
Qed.

(** X15: the files [process_dir] starts on are regular files found under
    the directory whose suffix is one of the six supported ones; a run
    that returns has started on each such file exactly as often as the
    enumeration lists it; and when there is none, nothing happens at
    all - no directory is created - and the output path is returned all
    the same. *)
Theorem process_dir_eligible W self path :
  Forall (fun tf => tf.2 ∈ rglob W path /\ is_file W tf.2 = true /\
                    suffix tf.2 ∈ [".mp4"; ".avi"; ".mov"; ".jpg"; ".jpeg"; ".png"]%string)
         (jobs (process_dir W self path).1) /\
  (forall out, (process_dir W self path).2 = Ok out ->
     map snd (jobs (process_dir W self path).1) ≡ₚ eligible W path) /\
  (eligible W path = [] ->
     process_dir W self path =
     ([], Ok (parent path ++ [(stem path ++ "_anonymized")%string]))).
Proof.
  assert (Hfiles : files_to_process W path ≡ₚ eligible W path).
  { unfold files_to_process. fold (eligible W path).
    rewrite sorted_reverse_bool.
    induction (eligible W path) as [|f l IH]; [reflexivity|].
    rewrite !filter_cons.
    destruct (str_in (suffix f) image_extensions); cbn.
    - rewrite decide_True, decide_False by (cbn; auto). cbn.
      constructor. exact IH.
    - rewrite decide_False, decide_True by (cbn; auto).
      rewrite <- Permutation_middle. constructor. exact IH. }
  assert (Hpre : jobs (process_dir W self path).1 `prefix_of`
            map (fun f => (filetype_of f, f)) (files_to_process W path) /\
          (forall out, (process_dir W self path).2 = Ok out ->
             jobs (process_dir W self path).1 =
             map (fun f => (filetype_of f, f)) (files_to_process W path))).
  { unfold process_dir. cbn zeta. rewrite io_bind_events, io_bind_result.
    destruct (dir_loop_jobs W self path
                (parent path ++ [(stem path ++ "_anonymized")%string])
                (Z.of_nat (length (files_to_process W path)))
                (files_to_process W path) 0) as [Hp He].
    destruct (dir_loop _ _ _ _ _ _ _) as [evs [[]|e]]; cbn [fst snd] in *;
      rewrite app_nil_r; split; auto; discriminate. }
  destruct Hpre as [Hpre Hok].
  split; [|split].
  - apply Forall_forall. intros tf Htf.
    destruct Hpre as [k Hk].
    assert (Hin : tf ∈ map (fun f => (filetype_of f, f))
                          (files_to_process W path)).
    { rewrite Hk. apply elem_of_app. left. exact Htf. }
    apply list_elem_of_fmap in Hin as (f & -> & Hf). cbn [snd].
    rewrite Hfiles in Hf. apply list_elem_of_filter in Hf as [Hf Hg].
    apply Is_true_true, andb_true_iff in Hf as [Hfile Hs].
    repeat split; auto.
    apply (str_in_elem _ _ Hs).
  - intros out Hout. rewrite (Hok out Hout).
    rewrite map_map. cbn [snd]. rewrite map_id. exact Hfiles.
  - intros Hnil. unfold process_dir, files_to_process.
    fold (eligible W path). rewrite Hnil. reflexivity.
Qed.

Lemma process_dir_eligible_witness :
  eligible dir_world folder = [clip; photo] /\
  map snd (jobs (process_dir dir_world quiet_self folder).1) ≡ₚ [clip; photo].
Proof.
  split; [reflexivity|].
  destruct (process_dir_eligible dir_world quiet_self folder)
    as (_ & Hok & _).
  apply (Hok ["in_anonymized"%string]). reflexivity.
Defined.

(** ** Runs without callbacks *)

Lemma video_loop_silent W self total : forall fs pos,
  local_progress_callback self = false ->
  local_values (video_loop W self total pos fs).1 = [].
Proof.
  induction fs as [|frame rest IH]; intros pos Hcb; [reflexivity|].
  rewrite video_loop_cons.
  destruct (process W self frame) as [[img bs] [[]|e]]; [|reflexivity].
  cbv beta iota.
  rewrite !io_bind_events. cbn [emit fst snd app].
  rewrite call_events, call_result, Hcb. cbn [app].
  change (local_values (out_write ?i :: ?l)) with (local_values l).
  apply IH, Hcb.
Qed.

Lemma process_video_file_silent W self in_path out_path :
  local_progress_callback self = false ->
  local_values (process_video_file W self in_path out_path).1 = [].
Proof.
  intros Hcb. rewrite process_video_file_eq. cbn zeta. cbn [fst].
  change (local_values (VideoWriter ?p ?b ?c ?d :: ?l))
    with (local_values l).
  rewrite local_values_app.
  destruct (isOpened _).
  - rewrite (video_loop_silent _ _ _ _ _ Hcb).
    destruct (video_loop _ _ _ _ _).2; reflexivity.
  - reflexivity.
Qed.

Lemma _process_file_silent W self filename out_filepath progress :
  local_progress_callback self = false ->
  local_values (_process_file W self filename out_filepath progress).1 = [].
Proof.
  intros Hcb. unfold _process_file.
  destruct (str_in (suffix filename) video_extensions).
  - rewrite !io_bind_events, ?io_bind_result, call_events, call_result.
    cbn [emit fst snd].
    rewrite !local_values_app.
    change (local_values (echo_processing ?t ?f :: ?l)) with (local_values l).
    rewrite ?local_values_app, (process_video_file_silent _ _ _ _ Hcb).
    destruct (global_progress_callback self);
      destruct (process_video_file _ _ _ _).2; reflexivity.
  - rewrite !io_bind_events, ?io_bind_result, call_events, call_result.
    cbn [emit fst snd].
    rewrite !local_values_app.
    change (local_values (echo_processing ?t ?f :: ?l)) with (local_values l).
    rewrite ?local_values_app.
    assert (Himg : local_values
              (process_image_file W self filename out_filepath).1 = []).
    { unfold process_image_file.
      destruct (imread W filename) as [img|]; [|reflexivity].
      destruct (process W self img) as [[img' bs] [[]|e]]; [|reflexivity].
      cbn. destruct (cv2_imwrite W out_filepath img'); reflexivity. }
    rewrite Himg.
    destruct (global_progress_callback self);
      destruct (process_image_file _ _ _ _).2; reflexivity.
Qed.

Lemma dir_loop_silent W self path out_path total : forall files pos,
  (local_progress_callback self = false ->
   local_values (dir_loop W self path out_path total pos files).1 = []) /\
  (global_progress_callback self = false ->
   global_values (dir_loop W self path out_path total pos files).1 = []).
Proof.
  induction files as [|f rest IH]; intros pos; [split; reflexivity|].
  rewrite dir_loop_cons. cbn zeta.
  rewrite !io_bind_events, ?io_bind_result. cbn [emit fst snd app].
  change (local_values (mkdir ?d :: ?l)) with (local_values l).
  change (global_values (mkdir ?d :: ?l)) with (global_values l).
  rewrite local_values_app, global_values_app, _process_file_global.
  destruct (IH (if isatty W then pos + 1 else pos)) as [IHl IHg].
  split; intros Hcb.
  - rewrite (_process_file_silent _ _ _ _ _ Hcb).
    destruct (_process_file _ _ _ _ _).2; [apply IHl, Hcb | reflexivity].
  - rewrite Hcb.
    destruct (_process_file _ _ _ _ _).2; [apply IHg, Hcb | reflexivity].
Qed.

(** X16: each callback is called only when it is bound: without a local
    callback no run emits a local progress value, and without a global
    callback no run emits a global one - for a directory as for a single
    file. *)
Theorem progress_needs_callbacks W self path filename :
  (local_progress_callback self = false ->
   local_values (process_dir W self path).1 = [] /\
   local_values (process_file W self filename).1 = []) /\
  (global_progress_callback self = false ->
   global_values (process_dir W self path).1 = [] /\
   global_values (process_file W self filename).1 = []).
Proof.
  assert (Hdir : forall evs : list event, forall r : res unit,
            (evs ++ match r with
                    | Ok _ => (mret (parent path ++
                        [(stem path ++ "_anonymized")%string])
                        : IO (list string)).1
                    | Raise _ => []
                    end) = evs).
  { intros evs [|]; apply app_nil_r. }
  destruct (dir_loop_silent W self path
              (parent path ++ [(stem path ++ "_anonymized")%string])
              (Z.of_nat (length (files_to_process W path)))
              (files_to_process W path) 0) as [Hl Hg].
  split; intros Hcb; split.
  - unfold process_dir. cbn zeta. rewrite io_bind_events, Hdir.
    apply Hl, Hcb.
  - apply _process_file_silent, Hcb.
  - unfold process_dir. cbn zeta. rewrite io_bind_events, Hdir.
    apply Hg, Hcb.
  - unfold process_file. rewrite _process_file_global, Hcb. reflexivity.
Qed.

Lemma progress_needs_callbacks_witness :
  local_progress_callback quiet_self = false /\
  global_progress_callback quiet_self = false /\
  jobs (process_dir dir_world quiet_self folder).1 =
    [(image, photo); (video, clip)] /\
  local_values (process_dir dir_world quiet_self folder).1 = [] /\
  global_values (process_dir dir_world quiet_self folder).1 = [] /\
  local_values (process_file dir_world quiet_self clip).1 = [] /\
  global_values (process_file dir_world quiet_self clip).1 = [].
Proof.
  destruct (progress_needs_callbacks dir_world quiet_self folder clip)
    as [Hl Hg].
  destruct (Hl eq_refl) as [Hl1 Hl2]. destruct (Hg eq_refl) as [Hg1 Hg2].
  split; [reflexivity|]. split; [reflexivity|].
  split; [vm_compute; reflexivity|]. auto.
Defined.

(** X17: the command of [process_dir.py] runs with the defaults of
    [__init__] and no callback, so it reports no progress; when the run
    returns, what it hands on to be opened is the sibling directory
    named after the input with [_anonymized] appended, whether or not
    anything was written there; and it does exactly what [process_dir]
    does on an anonymizer built with no argument. *)
Theorem process_dir_command_run W path :
  global_values (process_dir_command W path).1 = [] /\
  local_values (process_dir_command W path).1 = [] /\
  (forall out, (process_dir_command W path).2 = Ok out ->
     out = parent path ++ [(stem path ++ "_anonymized")%string]) /\
  (process_dir_command W path).1 =
    (process_dir W FaceAnonymizer_init path).1.
Proof.
  assert (Heq : process_dir_command W path =
                process_dir W FaceAnonymizer_init path).
  { unfold process_dir_command. cbn zeta.
    destruct (process_dir W FaceAnonymizer_init path) as [evs [out|e]];
      cbn; [rewrite app_nil_r|]; reflexivity. }
  rewrite Heq.
  assert (Hdir : forall evs : list event, forall r : res unit,
            (evs ++ match r with
                    | Ok _ => (mret (parent path ++
                        [(stem path ++ "_anonymized")%string])
                        : IO (list string)).1
                    | Raise _ => []
                    end) = evs).
  { intros evs [|]; apply app_nil_r. }
  destruct (dir_loop_silent W FaceAnonymizer_init path
              (parent path ++ [(stem path ++ "_anonymized")%string])
              (Z.of_nat (length (files_to_process W path)))
              (files_to_process W path) 0) as [Hl Hg].
  repeat split.
  - unfold process_dir. cbn zeta. rewrite io_bind_events, Hdir.
    apply Hg. reflexivity.
  - unfold process_dir. cbn zeta. rewrite io_bind_events, Hdir.
    apply Hl. reflexivity.
  - unfold process_dir. cbn zeta. rewrite io_bind_result.
    destruct (dir_loop _ _ _ _ _ _ _).2; cbn; congruence.
Qed.

(** ** The file panel *)

(** X18: the kind the file panel shows for a chosen file is the kind
    [_process_file] treats it as exactly when the file's suffix is one
    of the six supported ones; on any other suffix - an upper-case
    [.JPG], say - the panel says video and the file is processed as an
    image. *)
Theorem selected_type_agrees (selected : Path) :
  (selected_type selected = filetype_of selected <->
   str_in (suffix selected) supported_extensions = true) /\
  (str_in (suffix selected) supported_extensions = false ->
   selected_type selected = video /\ filetype_of selected = image).
Proof.
  unfold selected_type, filetype_of, str_in, supported_extensions,
    video_extensions, image_extensions.
  cbn [existsb app].
  destruct (String.eqb_spec (suffix selected) ".mp4") as [->|];
    [cbn; intuition congruence|].
  destruct (String.eqb_spec (suffix selected) ".avi") as [->|];
    [cbn; intuition congruence|].
  destruct (String.eqb_spec (suffix selected) ".mov") as [->|];
    [cbn; intuition congruence|].
  destruct (String.eqb_spec (suffix selected) ".jpg") as [->|];
    [cbn; intuition congruence|].
  destruct (String.eqb_spec (suffix selected) ".jpeg") as [->|];
    [cbn; intuition congruence|].
  destruct (String.eqb_spec (suffix selected) ".png") as [_|_];
    [cbn; intuition congruence|].
  cbn. intuition congruence.
Qed.
